(** * The INI section patcher of InstallAnyDesk.py

    A shallow embedding of [ensure_line_in_section], [backup_file],
    [disable_wayland_in_gdm] and [enable_gdm_autologin], with the fragment of
    Python's [re] module that these functions use.

    Modelling choices.
    - A Python [str] is a list of Unicode code points ([N]).
    - [re] is embedded as a backtracking matcher over the constructs that the
      three patterns of the source are compiled to: literals, one-character
      categories ([\s], [.]), the MULTILINE anchors [^] and [$], greedy [*]
      and lazy [+?] over a category, and concatenation.  The matcher tries
      the alternatives in the order of [re], so [search] returns the match
      that Python returns; a declarative reading of the patterns ([denote])
      is proved sound and complete for it.
    - [re.sub] parses its replacement as a template (backslash escapes and
      group references), so the embedding of [ensure_line_in_section] returns
      an [option]: [None] stands for the [re.error] or [IndexError] raised by
      the template compiler.
    - A file holds the text that [read_text] decodes from it; the storage is a
      finite map from paths to contents.  The effects of a run (copy, write,
      print) are recorded in a trace, in the order in which they happen. *)

From Stdlib Require Import NArith Ascii String.
From stdpp Require Import base option list strings gmap.

Local Open Scope N_scope.

(** ** Characters and strings *)

Abbreviation char := N.
Abbreviation text := (list N).

(** Code point of an ASCII character, and the text of an ASCII literal. *)
Definition chr (a : ascii) : char := N_of_ascii a.
Definition str (s : string) : text := chr <$> list_ascii_of_string s.

Definition NL : char := 0x0A.
Definition LBRACKET : char := 0x5B.
Definition RBRACKET : char := 0x5D.
Definition EQUALS : char := 0x3D.
Definition BACKSLASH : char := 0x5C.

(** [SRE_IS_LINEBREAK]: only the line feed breaks lines for [^] and [$]. *)
Definition is_linebreak (c : char) : bool := c =? NL.

(** [Py_UNICODE_ISSPACE], the category behind [\s] in a [str] pattern. *)
Definition isspace (c : char) : bool :=
  ((0x09 <=? c) && (c <=? 0x0D)) || ((0x1C <=? c) && (c <=? 0x20))
  || (c =? 0x85) || (c =? 0xA0) || (c =? 0x1680)
  || ((0x2000 <=? c) && (c <=? 0x200A))
  || (c =? 0x2028) || (c =? 0x2029) || (c =? 0x202F) || (c =? 0x205F)
  || (c =? 0x3000).

(** [.] without DOTALL: anything but a line feed. *)
Definition any_but_newline (c : char) : bool := negb (is_linebreak c).

(** [s.endswith("\n")] *)
Definition endswith_nl (s : text) : bool :=
  match last s with
  | Some c => is_linebreak c
  | None => false
  end.

(** [s[i:j]] for [0 <= i], [0 <= j] (out-of-range bounds are clamped). *)
Definition slice (i j : nat) (s : text) : text := take (j - i) (drop i s).

(** ** The regular-expression fragment *)

Inductive regex : Type :=
| Empty
| Literal (c : char)
| Category (p : char → bool)
| AtBeginningLine
| AtEndLine
| MaxRepeat (p : char → bool)
| MinRepeat1 (p : char → bool)
| Seq (r1 r2 : regex).

(** The pattern of [re.escape(s)]: it matches [s] literally. *)
Fixpoint escape (s : text) : regex :=
  match s with
  | [] => Empty
  | c :: s' => Seq (Literal c) (escape s')
  end.

(** A cursor is the text that remains, with a flag telling whether the cursor
    stands at the beginning of the subject or just after a line feed.
    The matcher is written in continuation-passing style: [k] is what remains
    of the pattern, and a [None] from it makes the matcher backtrack. *)

Section Matcher.
Context {A : Type}.
Implicit Types (k : bool → text → option A).

(** Greedy [p*]: the longest run first, then shorter ones. *)
Fixpoint max_repeat (p : char → bool) (bol : bool) (s : text) k : option A :=
  match s with
  | c :: s' =>
      if p c then
        match max_repeat p (is_linebreak c) s' k with
        | Some a => Some a
        | None => k bol s
        end
      else k bol s
  | [] => k bol s
  end.

(** Lazy [p*?]: the shortest run first, then longer ones. *)
Fixpoint min_repeat (p : char → bool) (bol : bool) (s : text) k : option A :=
  match k bol s with
  | Some a => Some a
  | None =>
      match s with
      | c :: s' => if p c then min_repeat p (is_linebreak c) s' k else None
      | [] => None
      end
  end.

Fixpoint rmatch (r : regex) (bol : bool) (s : text) k : option A :=
  match r with
  | Empty => k bol s
  | Literal c =>
      match s with
      | x :: s' => if x =? c then k (is_linebreak x) s' else None
      | [] => None
      end
  | Category p =>
      match s with
      | x :: s' => if p x then k (is_linebreak x) s' else None
      | [] => None
      end
  | AtBeginningLine => if bol then k bol s else None
  | AtEndLine =>
      match s with
      | [] => k bol s
      | x :: _ => if is_linebreak x then k bol s else None
      end
  | MaxRepeat p => max_repeat p bol s k
  | MinRepeat1 p =>
      match s with
      | x :: s' => if p x then min_repeat p (is_linebreak x) s' k else None
      | [] => None
      end
  | Seq r1 r2 => rmatch r1 bol s (λ bol' s', rmatch r2 bol' s' k)
  end.
End Matcher.

(** [pattern.match] at a cursor: what is left of the subject after the match. *)
Definition match_here (r : regex) (bol : bool) (s : text) : option text :=
  rmatch r bol s (λ _ rest, Some rest).

(** [pattern.search]: the leftmost position at which the pattern matches,
    as the pair [(m.start(), m.end())]. *)
Fixpoint search_from (r : regex) (bol : bool) (s : text) (pos : nat)
  : option (nat * nat) :=
  match match_here r bol s with
  | Some rest => Some (pos, (pos + (length s - length rest))%nat)
  | None =>
      match s with
      | [] => None
      | c :: s' => search_from r (is_linebreak c) s' (S pos)
      end
  end.

Definition search (r : regex) (s : text) : option (nat * nat) :=
  search_from r true s 0.

(** ** Replacement templates of [re.sub] *)

(** An item of a parsed template: a literal character or a reference to the
    whole match ([\g<0>]), the only group of a pattern without groups. *)
Inductive titem : Type :=
| TLiteral (c : char)
| TGroup0.

Definition is_octdigit (c : char) : bool := (0x30 <=? c) && (c <=? 0x37).
Definition is_digit (c : char) : bool := (0x30 <=? c) && (c <=? 0x39).
Definition is_asciiletter (c : char) : bool :=
  ((0x41 <=? c) && (c <=? 0x5A)) || ((0x61 <=? c) && (c <=? 0x7A)).
Definition digit_val (c : char) : N := c - 0x30.

(** The table [ESCAPES] of the template parser, keyed by the escaped char. *)
Definition ESCAPES (c : char) : option char :=
  if c =? 0x61 then Some 0x07        (* \a *)
  else if c =? 0x62 then Some 0x08   (* \b *)
  else if c =? 0x66 then Some 0x0C   (* \f *)
  else if c =? 0x6E then Some 0x0A   (* \n *)
  else if c =? 0x72 then Some 0x0D   (* \r *)
  else if c =? 0x74 then Some 0x09   (* \t *)
  else if c =? 0x76 then Some 0x0B   (* \v *)
  else if c =? 0x5C then Some 0x5C   (* \\ *)
  else None.

(** [Tokenizer.getuntil(">")]: the tokens up to the closing [>], and what
    follows it. A backslash and the character after it form one token. *)
Fixpoint getuntil (s : text) : option (text * text) :=
  match s with
  | [] => None
  | c :: s' =>
      if c =? 0x3E then Some ([], s')
      else if c =? BACKSLASH then
        match s' with
        | [] => None
        | d :: s'' =>
            match getuntil s'' with
            | Some (name, rest) => Some (c :: d :: name, rest)
            | None => None
            end
        end
      else
        match getuntil s' with
        | Some (name, rest) => Some (c :: name, rest)
        | None => None
        end
  end.

(** [parse_template] for a pattern with no capturing group (Python 3.12 and
    later, where a group number is a run of ASCII digits; Python 3.11 still
    accepts a few more, such as [+0], with a warning).  [None] is the
    exception of [re.sub] for a template that it rejects: [re.error], or
    [IndexError] for the name of a group that the pattern does not have.  The
    fuel is the length of the template, which bounds the number of tokens. *)
Fixpoint parse_template_fuel (fuel : nat) (s : text) : option (list titem) :=
  match fuel with
  | O => match s with [] => Some [] | _ => None end
  | S fuel =>
      match s with
      | [] => Some []
      | c :: s1 =>
          if negb (c =? BACKSLASH) then
            (TLiteral c ::.) <$> parse_template_fuel fuel s1
          else
            match s1 with
            | [] => None                       (* bad escape (end of pattern) *)
            | c1 :: s2 =>
                if c1 =? 0x67 then             (* \g<name> *)
                  match s2 with
                  | lt :: s3 =>
                      if lt =? 0x3C then
                        match getuntil s3 with
                        | Some (name, rest) =>
                            if bool_decide (name ≠ [])
                               && forallb (λ d, d =? 0x30) name
                            then (TGroup0 ::.) <$> parse_template_fuel fuel rest
                            else None          (* unknown or invalid group *)
                        | None => None         (* missing >, missing name *)
                        end
                      else None                (* missing < *)
                  | [] => None
                  end
                else if c1 =? 0x30 then        (* \0, \0o, \0oo *)
                  match s2 with
                  | d1 :: s3 =>
                      if is_octdigit d1 then
                        match s3 with
                        | d2 :: s4 =>
                            if is_octdigit d2 then
                              (TLiteral (N.land (8 * digit_val d1 + digit_val d2) 0xFF) ::.)
                                <$> parse_template_fuel fuel s4
                            else
                              (TLiteral (digit_val d1) ::.)
                                <$> parse_template_fuel fuel s3
                        | [] => Some [TLiteral (digit_val d1)]
                        end
                      else (TLiteral 0 ::.) <$> parse_template_fuel fuel s2
                  | [] => Some [TLiteral 0]
                  end
                else if is_digit c1 then       (* \ooo, or a group number *)
                  match s2 with
                  | d1 :: d2 :: s4 =>
                      if is_digit d1 && is_octdigit c1 && is_octdigit d1
                         && is_octdigit d2
                      then
                        let v := 64 * digit_val c1 + 8 * digit_val d1 + digit_val d2 in
                        if v <=? 0xFF
                        then (TLiteral v ::.) <$> parse_template_fuel fuel s4
                        else None              (* octal escape out of range *)
                      else None                (* invalid group reference *)
                  | _ => None                  (* invalid group reference *)
                  end
                else
                  match ESCAPES c1 with
                  | Some e => (TLiteral e ::.) <$> parse_template_fuel fuel s2
                  | None =>
                      if is_asciiletter c1 then None      (* bad escape *)
                      else (λ t, TLiteral c :: TLiteral c1 :: t)
                             <$> parse_template_fuel fuel s2
                  end
            end
      end
  end.

Definition parse_template (s : text) : option (list titem) :=
  parse_template_fuel (length s) s.

(** [match.expand] of a parsed template. *)
Definition expand_template (t : list titem) (whole : text) : text :=
  t ≫= λ i, match i with TLiteral c => [c] | TGroup0 => whole end.

(** [pattern.sub(repl, s, count=1)] with a string [repl]: the template is
    compiled first, then the leftmost match, if any, is replaced. *)
Definition sub1 (r : regex) (repl : text) (s : text) : option text :=
  match parse_template repl with
  | None => None
  | Some t =>
      match search r s with
      | None => Some s
      | Some (i, j) => Some (take i s ++ expand_template t (slice i j s) ++ drop j s)
      end
  end.

(** ** The patcher *)

(** [rf"^\[{re.escape(section)}\]\s*$"] with [re.MULTILINE] *)
Definition section_re (section : text) : regex :=
  Seq AtBeginningLine
   (Seq (Literal LBRACKET)
     (Seq (escape section)
       (Seq (Literal RBRACKET)
         (Seq (MaxRepeat isspace) AtEndLine)))).

(** [r"^\[.+?\]\s*$"] with [re.MULTILINE] *)
Definition next_section_re : regex :=
  Seq AtBeginningLine
   (Seq (Literal LBRACKET)
     (Seq (MinRepeat1 any_but_newline)
       (Seq (Literal RBRACKET)
         (Seq (MaxRepeat isspace) AtEndLine)))).

(** [rf"^\s*{re.escape(key)}\s*=\s*.*$"] with [re.MULTILINE] *)
Definition key_re (key : text) : regex :=
  Seq AtBeginningLine
   (Seq (MaxRepeat isspace)
     (Seq (escape key)
       (Seq (MaxRepeat isspace)
         (Seq (Literal EQUALS)
           (Seq (MaxRepeat isspace)
             (Seq (MaxRepeat any_but_newline) AtEndLine)))))).

(** [f"{key}={value}"] *)
Definition key_value (key value : text) : text := key ++ EQUALS :: value.

(** [end] of the source: where the block of the section stops, given where
    it starts. *)
Definition block_end (conf : text) (start : nat) : nat :=
  (start + match search next_section_re (drop start conf) with
           | Some (next_start, _) => next_start
           | None => length (drop start conf)
           end)%nat.

(** Lines 75-82 of the source: the key is replaced in, or appended to, the
    block. *)
Definition upsert (block key value : text) : option text :=
  match search (key_re key) block with
  | Some _ => sub1 (key_re key) (key_value key value) block
  | None =>
      let block := if endswith_nl block then block else block ++ [NL] in
      Some (block ++ key_value key value ++ [NL])
  end.

Definition ensure_line_in_section (conf section key value : text) : option text :=
  match search (section_re section) conf with
  | None =>
      let conf := if endswith_nl conf then conf else conf ++ [NL] in
      Some (conf ++ NL :: LBRACKET :: section ++ RBRACKET :: NL
                 :: key_value key value ++ [NL])
  | Some (_, start) =>
      let end_ := block_end conf start in
      let block := slice start end_ conf in
      block ← upsert block key value;
      Some (take start conf ++ block ++ drop end_ conf)
  end.

(** ** Storage, clock and console *)

(** The storage is a finite map from paths to texts: a path that exists is a
    regular file that can be read, copied and written.  What the operating
    system or the text encoding may refuse besides (permissions, a directory
    in place of the file, a full disk, a character that the encoding lacks)
    is outside this model: the properties below are about the runs in which
    these calls go through.

    The exceptions that the patch operations raise themselves:
    [FileNotFoundError], raised by [backup_file] on a missing file, and
    [ReError], with which [re.sub] rejects the replacement template
    ([re.error], or the [IndexError] for the name of a group that the pattern
    does not have). *)
Inductive exn : Type :=
| FileNotFoundError (path : string)
| ReError.

Inductive event : Type :=
| EvCopy (src dst : string)
| EvWrite (path : string) (content : text)
| EvPrint (msg : text).

Record world : Type := World {
  files : gmap string text;
  clock : string;              (* [datetime.now().strftime("%Y%m%d_%H%M%S")] *)
  trace : list event
}.

Inductive outcome (A : Type) : Type :=
| Return (a : A)
| Raise (e : exn).
Arguments Return {A} a.
Arguments Raise {A} e.

(** A computation runs in a world and ends by returning or raising; the
    world it leaves behind is kept in both cases. *)
Definition io (A : Type) : Type := world → outcome A * world.

#[global] Instance io_ret : MRet io := λ A a w, (Return a, w).
#[global] Instance io_bind : MBind io := λ A B f m w,
  match m w with
  | (Return a, w') => f a w'
  | (Raise e, w') => (Raise e, w')
  end.

Definition raise {A : Type} (e : exn) : io A := λ w, (Raise e, w).

Definition path_exists (path : string) : io bool :=
  λ w, (Return (bool_decide (is_Some (files w !! path))), w).

Definition strftime_now : io string := λ w, (Return (clock w), w).

Definition copy2 (src dst : string) : io unit := λ w,
  match files w !! src with
  | Some content =>
      (Return (), World (<[dst := content]> (files w)) (clock w)
                        (trace w ++ [EvCopy src dst]))
  | None => (Raise (FileNotFoundError src), w)
  end.

Definition read_text (path : string) : io text := λ w,
  match files w !! path with
  | Some content => (Return content, w)
  | None => (Raise (FileNotFoundError path), w)
  end.

Definition write_text (path : string) (content : text) : io unit := λ w,
  (Return (), World (<[path := content]> (files w)) (clock w)
                    (trace w ++ [EvWrite path content])).

Definition print (msg : text) : io unit := λ w,
  (Return (), World (files w) (clock w) (trace w ++ [EvPrint msg])).

(** A template that the patcher rejects surfaces as an exception of the
    caller. *)
Definition of_re {A : Type} (o : option A) : io A :=
  match o with
  | Some a => mret a
  | None => raise ReError
  end.

Definition GDM_CUSTOM_CONF : string := "/etc/gdm3/custom.conf".

(** [path.with_suffix(path.suffix + f".bak_{ts}")]: the path followed by the
    new ending (the final component of the path has a name). *)
Definition bak_path (path ts : string) : string := path +:+ ".bak_" +:+ ts.

Definition MSG_BACKED_UP (path backup : string) : text :=
  str "Backed up " ++ str path ++ str " -> " ++ str backup.

Definition backup_file (path : string) : io string :=
  present ← path_exists path;
  if negb present then raise (FileNotFoundError path)
  else
    ts ← strftime_now;
    let backup := bak_path path ts in
    copy2 path backup;;
    print (MSG_BACKED_UP path backup);;
    mret backup.

Definition MSG_WAYLAND_UPDATED : text :=
  str "Updated GDM config: Wayland disabled (WaylandEnable=false).".
Definition MSG_WAYLAND_NO_CHANGE : text :=
  str "GDM config already has WaylandEnable=false (no change).".
Definition MSG_AUTOLOGIN_UPDATED (user : text) : text :=
  str "Updated GDM config: auto-login enabled for user '" ++ user ++ str "'.".
Definition MSG_AUTOLOGIN_NO_CHANGE : text :=
  str "GDM auto-login settings already present (no change).".

Definition disable_wayland_in_gdm : io unit :=
  backup_file GDM_CUSTOM_CONF;;
  conf ← read_text GDM_CUSTOM_CONF;
  conf2 ← of_re (ensure_line_in_section conf (str "daemon")
                   (str "WaylandEnable") (str "false"));
  if bool_decide (conf2 ≠ conf) then
    write_text GDM_CUSTOM_CONF conf2;;
    print MSG_WAYLAND_UPDATED
  else
    print MSG_WAYLAND_NO_CHANGE.

Definition enable_gdm_autologin (user : text) : io unit :=
  backup_file GDM_CUSTOM_CONF;;
  conf ← read_text GDM_CUSTOM_CONF;
  let conf2 := conf in
  conf2 ← of_re (ensure_line_in_section conf2 (str "daemon")
                   (str "AutomaticLoginEnable") (str "true"));
  conf2 ← of_re (ensure_line_in_section conf2 (str "daemon")
                   (str "AutomaticLogin") user);
  if bool_decide (conf2 ≠ conf) then
    write_text GDM_CUSTOM_CONF conf2;;
    print (MSG_AUTOLOGIN_UPDATED user)
  else
    print MSG_AUTOLOGIN_NO_CHANGE.

(** ** What the patterns match *)

(** The line flag of a cursor after it has moved over [m]. *)
Definition bol_after (bol : bool) (m : text) : bool :=
  match last m with
  | Some c => is_linebreak c
  | None => bol
  end.

(** [$] holds in front of [rest]. *)
Definition at_eol (rest : text) : Prop := rest = [] ∨ ∃ r, rest = NL :: r.

(** [denote r bol m rest]: [r] matches the text [m] at a cursor with line flag
    [bol], when [m] is followed by [rest]. *)
Fixpoint denote (r : regex) (bol : bool) (m rest : text) : Prop :=
  match r with
  | Empty => m = []
  | Literal c => m = [c]
  | Category p => ∃ c, m = [c] ∧ p c = true
  | AtBeginningLine => m = [] ∧ bol = true
  | AtEndLine => m = [] ∧ at_eol rest
  | MaxRepeat p => Forall (λ c, p c = true) m
  | MinRepeat1 p => m ≠ [] ∧ Forall (λ c, p c = true) m
  | Seq r1 r2 =>
      ∃ m1 m2, m = m1 ++ m2 ∧ denote r1 bol m1 (m2 ++ rest)
               ∧ denote r2 (bol_after bol m1) m2 rest
  end.

(** [r] matches at offset [p] of [s]. *)
Definition matches_at (r : regex) (s : text) (p : nat) : Prop :=
  (p ≤ length s)%nat ∧
  ∃ m rest, drop p s = m ++ rest ∧ denote r (bol_after true (take p s)) m rest.

(** Offset [p] of [s] is the first character of a line. *)
Definition line_start (s : text) (p : nat) : Prop :=
  (p ≤ length s)%nat ∧ bol_after true (take p s) = true.

(** A header line [[section]] (with optional trailing white space) begins at
    offset [p] of [conf]. *)
Definition section_header_at (section conf : text) (p : nat) : Prop :=
  line_start conf p ∧
  ∃ ws rest, drop p conf = LBRACKET :: section ++ RBRACKET :: ws ++ rest
             ∧ Forall (λ c, isspace c = true) ws ∧ at_eol rest.

(** A header line [[name]], for some non-empty [name] on that line, begins at
    offset [p] of [conf]. *)
Definition header_at (conf : text) (p : nat) : Prop :=
  line_start conf p ∧
  ∃ name ws rest, drop p conf = LBRACKET :: name ++ RBRACKET :: ws ++ rest
                  ∧ name ≠ [] ∧ Forall (λ c, any_but_newline c = true) name
                  ∧ Forall (λ c, isspace c = true) ws ∧ at_eol rest.

(** The key pattern matches at offset [p] of [block]: at the start of a line,
    white space, the key, white space, [=], white space, and the rest of a
    line.  White space includes line breaks, so the match may begin on an
    earlier blank line and may run over several lines. *)
Definition key_match_at (key block : text) (p : nat) : Prop :=
  line_start block p ∧
  ∃ ws1 ws2 ws3 val rest,
    drop p block = ws1 ++ key ++ ws2 ++ EQUALS :: ws3 ++ val ++ rest
    ∧ Forall (λ c, isspace c = true) ws1 ∧ Forall (λ c, isspace c = true) ws2
    ∧ Forall (λ c, isspace c = true) ws3
    ∧ Forall (λ c, any_but_newline c = true) val ∧ at_eol rest.

(** ** Vocabulary of the properties *)

(** The block of the section, as the patcher delimits it: from the end of the
    first header that matches [[section]] to the next header line, or to the
    end of the text. *)
Definition section_block_range (conf section : text) : option (nat * nat) :=
  match search (section_re section) conf with
  | Some (_, start) => Some (start, block_end conf start)
  | None => None
  end.

(** Offset just after the closing bracket of a header [[section]] that begins
    at offset [p]. *)
Definition header_end (section : text) (p : nat) : nat :=
  (p + length (LBRACKET :: section ++ [RBRACKET]))%nat.

(** [p] is the first offset at which a header line [[section]] begins. *)
Definition first_section_header (section conf : text) (p : nat) : Prop :=
  section_header_at section conf p
  ∧ ∀ p', (p' < p)%nat → ¬ section_header_at section conf p'.

(** The append step as the specification words it: a line break is inserted
    in front of the new line if and only if the body is non-empty and does not
    end with one. *)
Definition append_as_claimed (body key value : text) : text :=
  body ++ (if bool_decide (body ≠ []) && negb (endswith_nl body) then [NL] else [])
       ++ key_value key value ++ [NL].

(** The transformations that the two patch operations apply to the text of
    the file. *)
Definition wayland_transform (conf : text) : option text :=
  ensure_line_in_section conf (str "daemon") (str "WaylandEnable") (str "false").

Definition autologin_transform (user conf : text) : option text :=
  conf1 ← ensure_line_in_section conf (str "daemon")
             (str "AutomaticLoginEnable") (str "true");
  ensure_line_in_section conf1 (str "daemon") (str "AutomaticLogin") user.

(** The world after the backup step of a patch operation on a file that
    holds [old]. *)
Definition backed_up_world (w : world) (old : text) : world :=
  let backup := bak_path GDM_CUSTOM_CONF (clock w) in
  World (<[backup := old]> (files w)) (clock w)
        (trace w ++ [EvCopy GDM_CUSTOM_CONF backup;
                     EvPrint (MSG_BACKED_UP GDM_CUSTOM_CONF backup)]).

(** The world after a whole patch operation that computed [new] from [old]. *)
Definition patched_world (w : world) (old new updated no_change : text) : world :=
  let w1 := backed_up_world w old in
  if bool_decide (new ≠ old) then
    World (<[GDM_CUSTOM_CONF := new]> (files w1)) (clock w1)
          (trace w1 ++ [EvWrite GDM_CUSTOM_CONF new; EvPrint updated])
  else
    World (files w1) (clock w1) (trace w1 ++ [EvPrint no_change]).

Definition no_write (evs : list event) : Prop :=
  ∀ path content, EvWrite path content ∉ evs.

Definition reports (evs : list event) (msg : text) : Prop :=
  last evs = Some (EvPrint msg).

(** A patch operation [run] that applies [transform]: on a file that holds
    [old], when the transformation yields [new], the run returns, the file
    holds [new] afterwards, and the file is written (in full, with [new]) if
    and only if [new] differs from [old]; the message tells which.  When the
    transformation raises, so does the run, and the file is not written. *)
Definition writes_iff_changed (run : io unit) (transform : text → option text)
    (updated no_change : text) : Prop :=
  ∀ w old,
    files w !! GDM_CUSTOM_CONF = Some old →
    ∃ w' evs,
      trace w' = trace w ++ evs ∧
      match transform old with
      | Some new =>
          run w = (Return (), w')
          ∧ files w' !! GDM_CUSTOM_CONF = Some new
          ∧ if bool_decide (new = old)
            then no_write evs ∧ reports evs no_change
            else EvWrite GDM_CUSTOM_CONF new ∈ evs ∧ reports evs updated
      | None =>
          run w = (Raise ReError, w')
          ∧ files w' !! GDM_CUSTOM_CONF = Some old ∧ no_write evs
      end.

(** The backup discipline of a patch operation [run]: without the file the
    run raises [FileNotFoundError] and leaves the world as it was; with the
    file, the first effect of the run is the copy to the timestamped backup
    path, and the backup holds the content the file had before the run. *)
Definition backup_first (run : io unit) : Prop :=
  ∀ w,
    match files w !! GDM_CUSTOM_CONF with
    | None => run w = (Raise (FileNotFoundError GDM_CUSTOM_CONF), w)
    | Some old =>
        let backup := bak_path GDM_CUSTOM_CONF (clock w) in
        ∃ o w' evs,
          run w = (o, w')
          ∧ trace w' = trace w ++ EvCopy GDM_CUSTOM_CONF backup :: evs
          ∧ (∀ src dst, EvCopy src dst ∉ evs)
          ∧ files w' !! backup = Some old
    end.

(** The clock moves on between two runs: the world with a new reading. *)
Definition set_clock (ts : string) (w : world) : world :=
  World (files w) ts (trace w).

(** One of the two patch operations of the script. *)
Definition patch_operation (run : io unit) : Prop :=
  run = disable_wayland_in_gdm ∨ ∃ user, run = enable_gdm_autologin user.

(** ** The rest of the script: processes and [main] *)

(** What lies outside the script: the user id of the process, the clock, and
    the programs that [subprocess.run] starts.  A started program may change
    the files and the machine in any way; it ends with an exit status, or is
    not started at all ([None], the [OSError] of [subprocess.run]). *)
Record environment : Type := Environment {
  machine : Type;
  geteuid : machine → Z;
  wall_clock : machine → string;
  elapse : machine → machine;
  spawn : list text → gmap string text → machine
          → option Z * gmap string text * machine
}.

Record host (E : environment) : Type := Host {
  hworld : world;
  hmachine : machine E
}.
Arguments Host {E} hworld hmachine.
Arguments hworld {E} h.
Arguments hmachine {E} h.

Inductive script_exn : Type :=
| PatchError (e : exn)
| SystemExit (msg : text)
| CalledProcessError (returncode : Z) (cmd : list text)
| SpawnError (cmd : list text).

Inductive result (A : Type) : Type :=
| Done (a : A)
| Raised (e : script_exn).
Arguments Done {A} a.
Arguments Raised {A} e.

Definition sh (E : environment) (A : Type) : Type := host E → result A * host E.

#[global] Instance sh_ret (E : environment) : MRet (sh E) := λ A a h, (Done a, h).
#[global] Instance sh_bind (E : environment) : MBind (sh E) := λ A B f m h,
  match m h with
  | (Done a, h') => f a h'
  | (Raised e, h') => (Raised e, h')
  end.

Definition throw {E : environment} {A : Type} (e : script_exn) : sh E A :=
  λ h, (Raised e, h).

(** A step of the script on the storage and the console.  The clock of the
    world is the reading of the wall clock when the step begins, and time
    passes while it runs. *)
Definition lift_io {E : environment} {A : Type} (c : io A) : sh E A := λ h,
  let w := set_clock (wall_clock E (hmachine h)) (hworld h) in
  match c w with
  | (Return a, w') => (Done a, Host w' (elapse E (hmachine h)))
  | (Raise e, w') => (Raised (PatchError e), Host w' (elapse E (hmachine h)))
  end.

(** [subprocess.run(cmd)], before the check of the exit status. *)
Definition subprocess_run {E : environment} (cmd : list text) : sh E Z := λ h,
  let '(status, fs, m) := spawn E cmd (files (hworld h)) (hmachine h) in
  let h' := Host (World fs (clock (hworld h)) (trace (hworld h))) m in
  match status with
  | Some returncode => (Done returncode, h')
  | None => (Raised (SpawnError cmd), h')
  end.

(** [' '.join(cmd)] *)
Fixpoint join_space (cmd : list text) : text :=
  match cmd with
  | [] => []
  | [x] => x
  | x :: cmd' => x ++ 0x20 :: join_space cmd'
  end.

Definition run {E : environment} (cmd : list text) (check : bool) : sh E Z :=
  lift_io (print (str "+ " ++ join_space cmd));;
  returncode ← subprocess_run cmd;
  if check && negb (returncode =? 0)%Z
  then throw (CalledProcessError returncode cmd)
  else mret returncode.

Definition MSG_NOT_ROOT : text :=
  str "This script must be run as root. Use: sudo python3 setup_anydesk_unattended.py ...".

Definition require_root {E : environment} : sh E unit := λ h,
  if negb (geteuid E (hmachine h) =? 0)%Z
  then (Raised (SystemExit MSG_NOT_ROOT), h)
  else (Done (), h).

Definition systemctl_enable_start {E : environment} (service : text) : sh E unit :=
  run [str "systemctl"; str "enable"; service] true;;
  run [str "systemctl"; str "start"; service] true;;
  run [str "systemctl"; str "status"; service; str "--no-pager"] false;;
  mret ().

Definition apt_install {E : environment} (pkgs : list text) : sh E unit :=
  run [str "apt-get"; str "update"] true;;
  run ([str "apt-get"; str "install"; str "-y"] ++ pkgs) true;;
  mret ().

(** The parsed command line of [main]. *)
Record Args : Type := {
  user : text;
  enable_autologin : bool;
  enable_ssh : bool;
  restart_gdm : bool
}.

Definition MSG_CONFIGURING : text :=
  str "== Configuring GDM to use Xorg (disable Wayland) ==".
Definition MSG_ENABLING_AUTOLOGIN : text := str "== Enabling GDM auto-login ==".
Definition MSG_SKIPPING_AUTOLOGIN : text :=
  str "== Skipping auto-login (not requested) ==".
Definition MSG_ENSURING_ANYDESK : text :=
  str "== Ensuring AnyDesk service is enabled and running ==".
Definition MSG_INSTALLING_SSH : text :=
  str "== Installing + enabling OpenSSH server ==".
Definition MSG_SKIPPING_SSH : text :=
  str "== Skipping SSH setup (not requested) ==".
Definition MSG_RESTARTING_GDM : text :=
  str "== Restarting GDM (this will end your current GUI session) ==".
Definition MSG_GDM_RESTARTED : text := str "GDM restarted.".
Definition MSG_NEXT_STEP : text := [NL] ++ str "== Next step ==".
Definition MSG_REBOOT_RECOMMENDED : text :=
  str "Reboot is recommended to ensure Xorg is active:".
Definition MSG_SUDO_REBOOT : text := str "  sudo reboot".
Definition MSG_AFTER_REBOOT : text :=
  [NL] ++ str "== After reboot/login, verify ==".
Definition MSG_VERIFY_SESSION : text :=
  str "  echo $XDG_SESSION_TYPE    # should be: x11".
Definition MSG_VERIFY_WHO : text :=
  str "  who                      # should show a logged-in session for the user".
Definition MSG_VERIFY_ID : text :=
  str "  anydesk --get-id         # shows the AnyDesk ID (if supported by your version)".
Definition MSG_FINALLY : text :=
  [NL] ++ str "== Finally, set Unattended Access password in AnyDesk GUI ==".
Definition MSG_ANYDESK : text := str "  anydesk".
Definition MSG_SETTINGS : text :=
  str "  Settings "
  ++ [0x2192]
  ++ str " Security "
  ++ [0x2192]
  ++ str " Unattended Access "
  ++ [0x2192]
  ++ str " set password".
Definition MSG_DONE : text := [NL] ++ str "Done.".
Definition MSG_NO_GDM : text :=
  str GDM_CUSTOM_CONF
  ++ str " not found. This script assumes GDM (Ubuntu GNOME). If you use LightDM/SDDM, tell me and I"
  ++ [0x2019]
  ++ str "ll adapt it.".

Definition say {E : environment} (msg : text) : sh E unit := lift_io (print msg).

(** [main], from the parsed arguments on. *)
Definition main {E : environment} (args : Args) : sh E unit :=
  require_root;;
  present ← lift_io (path_exists GDM_CUSTOM_CONF);
  if negb present then throw (SystemExit MSG_NO_GDM)
  else
    say MSG_CONFIGURING;;
    lift_io disable_wayland_in_gdm;;
    (if enable_autologin args then
       say MSG_ENABLING_AUTOLOGIN;;
       lift_io (enable_gdm_autologin (user args))
     else
       say MSG_SKIPPING_AUTOLOGIN);;
    say MSG_ENSURING_ANYDESK;;
    systemctl_enable_start (str "anydesk.service");;
    (if enable_ssh args then
       say MSG_INSTALLING_SSH;;
       apt_install [str "openssh-server"];;
       systemctl_enable_start (str "ssh.service")
     else
       say MSG_SKIPPING_SSH);;
    (if restart_gdm args then
       say MSG_RESTARTING_GDM;;
       run [str "systemctl"; str "restart"; str "gdm3"] true;;
       say MSG_GDM_RESTARTED
     else
       say MSG_NEXT_STEP;;
       say MSG_REBOOT_RECOMMENDED;;
       say MSG_SUDO_REBOOT);;
    say MSG_AFTER_REBOOT;;
    say MSG_VERIFY_SESSION;;
    say MSG_VERIFY_WHO;;
    say MSG_VERIFY_ID;;
    say MSG_FINALLY;;
    say MSG_ANYDESK;;
    say MSG_SETTINGS;;
    say MSG_DONE.

(** The exceptions that come from a started program. *)
Definition process_error (e : script_exn) : Prop :=
  match e with
  | CalledProcessError _ _ | SpawnError _ => True
  | PatchError _ | SystemExit _ => False
  end.

Definition only_process_errors {E : environment} {A : Type} (c : sh E A) : Prop :=
  ∀ h e h', c h = (Raised e, h') → process_error e.

(** The host after [run] has announced [cmd] on the console, and the exit
    status and the host after the program has run. *)
Definition announced {E : environment} (cmd : list text) (h : host E) : host E :=
  Host (World (files (hworld h)) (wall_clock E (hmachine h))
              (trace (hworld h) ++ [EvPrint (str "+ " ++ join_space cmd)]))
       (elapse E (hmachine h)).

Definition started {E : environment} (cmd : list text) (h : host E)
  : option Z * host E :=
  let h1 := announced cmd h in
  let '(status, fs, m) := spawn E cmd (files (hworld h1)) (hmachine h1) in
  (status, Host (World fs (clock (hworld h1)) (trace (hworld h1))) m).

(** Two environments for the examples: an ordinary user and root, on a
    machine where every program exits with status 0, except that
    [systemctl status] exits with 3, and changes nothing. *)
Definition quiet_spawn (cmd : list text) (fs : gmap string text) (m : unit)
  : option Z * gmap string text * unit :=
  (Some (if bool_decide (cmd !! 1%nat = Some (str "status")) then 3 else 0)%Z, fs, m).

Definition user_env : environment :=
  Environment unit (λ _, 1000%Z) (λ _, "20240101_120000") (λ m, m) quiet_spawn.

Definition root_env : environment :=
  Environment unit (λ _, 0%Z) (λ _, "20240101_120000") (λ m, m) quiet_spawn.

Definition ARGS_CORP : Args :=
  {| user := str "CORP\user"; enable_autologin := true;
     enable_ssh := false; restart_gdm := false |}.

(** ** Texts of the examples *)

Definition DAEMON : text := str "daemon".
Definition WAYLAND_ENABLE : text := str "WaylandEnable".
Definition FALSE : text := str "false".

(** [[daemon]\nAutomaticLoginEnable=false\n] *)
Definition example_input : text :=
  str "[daemon]" ++ [NL] ++ str "AutomaticLoginEnable=false" ++ [NL].

(** [[daemon]\nAutomaticLoginEnable=false\nWaylandEnable=false\n] *)
Definition example_output : text :=
  str "[daemon]" ++ [NL] ++ str "AutomaticLoginEnable=false" ++ [NL]
  ++ str "WaylandEnable=false" ++ [NL].

(** [[security]\nDisallowTCP=true], without a final line break *)
Definition security_only : text :=
  str "[security]" ++ [NL] ++ str "DisallowTCP=true".

(** [[daemon]], without a final line break: a section with an empty block *)
Definition bare_header : text := str "[daemon]".

(** [[daemon]\nWaylandEnable=true\n] *)
Definition wayland_on : text :=
  str "[daemon]" ++ [NL] ++ str "WaylandEnable=true" ++ [NL].

(** [[daemon]\nWaylandEnable = true\n] *)
Definition wayland_on_spaced : text :=
  str "[daemon]" ++ [NL] ++ str "WaylandEnable = true" ++ [NL].

(** [[daemon]\nAutomaticLogin=\nTimedLoginEnable=true\n] *)
Definition empty_value_then_key : text :=
  str "[daemon]" ++ [NL] ++ str "AutomaticLogin=" ++ [NL]
  ++ str "TimedLoginEnable=true" ++ [NL].

(** [[daemon]\nAutomaticLogin=gert\n] *)
Definition autologin_gert : text :=
  str "[daemon]" ++ [NL] ++ str "AutomaticLogin=gert" ++ [NL].

(** [[daemon]\nWaylandEnable=true\n\n[security]\nDisallowTCP=true\n] *)
Definition two_sections : text :=
  str "[daemon]" ++ [NL] ++ str "WaylandEnable=true" ++ [NL] ++ [NL]
  ++ str "[security]" ++ [NL] ++ str "DisallowTCP=true" ++ [NL].


(** [[daemon]WaylandEnable=false\\n]: the header and the key on one line *)
Definition merged_header : text := str "[daemon]WaylandEnable=false" ++ [NL].

(** [[daemon]\\nWaylandEnable=false\\n] *)
Definition wayland_off : text :=
  str "[daemon]" ++ [NL] ++ str "WaylandEnable=false" ++ [NL].

Definition AUTOMATIC_LOGIN : text := str "AutomaticLogin".

(** [[daemon]\\nAutomaticLogin=\\n# set by the installer\\n[security]\\nDisallowTCP=true\\n] *)
Definition empty_value_then_comment : text :=
  str "[daemon]" ++ [NL] ++ str "AutomaticLogin=" ++ [NL]
  ++ str "# set by the installer" ++ [NL]
  ++ str "[security]" ++ [NL] ++ str "DisallowTCP=true" ++ [NL].

(** [[daemon]AutomaticLogin=gert\\n[security]\\nDisallowTCP=true\\n] *)
Definition empty_value_then_comment_patched : text :=
  str "[daemon]AutomaticLogin=gert" ++ [NL]
  ++ str "[security]" ++ [NL] ++ str "DisallowTCP=true" ++ [NL].

(** [s.split("\\n")] *)
Fixpoint lines (s : text) : list text :=
  match s with
  | [] => [[]]
  | c :: s' =>
      if is_linebreak c then [] :: lines s'
      else match lines s' with
           | l :: ls => (c :: l) :: ls
           | [] => [[c]]
           end
  end.

(** A comment line of the file format: it begins with [#] or [;]. *)
Definition is_comment_line (l : text) : bool :=
  match l with
  | c :: _ => (c =? 0x23) || (c =? 0x3B)
  | [] => false
  end.

(** Every comment line of [conf] is still a line of [out]. *)
Definition comment_lines_kept (conf out : text) : Prop :=
  ∀ l, l ∈ lines conf → is_comment_line l = true → l ∈ lines out.

(** The number of characters up to the next line break of [s]. *)
Fixpoint line_length (s : text) : nat :=
  match s with
  | [] => 0
  | c :: s' => if is_linebreak c then 0 else S (line_length s')
  end.

(** Where the body of a section begins, for a header line that begins at
    offset [p]: immediately after the line break of the header line (at the
    end of the text if the header line is the last line, without one). *)
Definition body_start (conf : text) (p : nat) : nat :=
  Nat.min (p + line_length (drop p conf) + 1) (length conf).

(** The frame as the specification words it.  The text outside the body of
    the section is the same in [out] as in [conf]: without a header for the
    section the whole of [conf] is kept; with one, the text up to the end of
    the first header line, its line break included, is kept, and so is
    everything from the next header line on; and every comment line of
    [conf] is still there. *)
Definition outside_section_unchanged (conf section out : text) : Prop :=
  ((∀ p, ¬ section_header_at section conf p) → conf `prefix_of` out)
  ∧ (∀ p, first_section_header section conf p →
       take (body_start conf p) conf `prefix_of` out
       ∧ ∀ q, (body_start conf p ≤ q)%nat → header_at conf q →
           drop q conf `suffix_of` out)
  ∧ comment_lines_kept conf out.

(** [needle in hay] for strings. *)
Fixpoint startswith (needle hay : text) : bool :=
  match needle, hay with
  | [], _ => true
  | c :: needle', d :: hay' => (c =? d) && startswith needle' hay'
  | _ :: _, [] => false
  end.

Fixpoint contains (needle hay : text) : bool :=
  startswith needle hay
  || match hay with
     | [] => false
     | _ :: hay' => contains needle hay'
     end.

(** ** Facts about the matcher *)

Section MatcherFacts.
Context {A : Type}.
Implicit Types (k : bool → text → option A) (p : char → bool).

Lemma bol_after_nil bol : bol_after bol [] = bol.
Proof. reflexivity. Qed.

Lemma bol_after_cons bol c m :
  bol_after bol (c :: m) = bol_after (is_linebreak c) m.
Proof.
  unfold bol_after. destruct m as [|d m]; [done|].
  change (last (c :: d :: m)) with (last (d :: m)).
  destruct (last (d :: m)) eqn:E; [done|]. by apply last_None in E.
Qed.

Lemma bol_after_app bol m1 m2 :
  bol_after bol (m1 ++ m2) = bol_after (bol_after bol m1) m2.
Proof.
  revert bol. induction m1 as [|c m1 IH]; intros bol; [done|].
  rewrite <- app_comm_cons, !bol_after_cons. apply IH.
Qed.

Lemma max_repeat_sound p s bol k a :
  max_repeat p bol s k = Some a →
  ∃ m rest, s = m ++ rest ∧ Forall (λ c, p c = true) m
            ∧ k (bol_after bol m) rest = Some a.
Proof.
  revert bol. induction s as [|c s IH]; intros bol; simpl.
  - intros H. by exists [], [].
  - destruct (p c) eqn:Hp; [|intros H; by exists [], (c :: s)].
    destruct (max_repeat p (is_linebreak c) s k) eqn:Hrec.
    + intros [= <-]. destruct (IH _ Hrec) as (m & rest & -> & Hm & Hk).
      exists (c :: m), rest. rewrite bol_after_cons.
      split; [done|]. split; [by constructor|done].
    + intros H. by exists [], (c :: s).
Qed.

Lemma max_repeat_complete p m rest bol k :
  Forall (λ c, p c = true) m →
  is_Some (k (bol_after bol m) rest) →
  is_Some (max_repeat p bol (m ++ rest) k).
Proof.
  revert bol. induction m as [|c m IH]; intros bol Hm Hk.
  - rewrite bol_after_nil in Hk. destruct rest as [|c rest]; [done|]. simpl.
    destruct (p c); [|done]. by destruct (max_repeat p _ rest k).
  - inversion_clear Hm as [|?? Hc Hm']. rewrite bol_after_cons in Hk.
    simpl. rewrite Hc. destruct (IH _ Hm' Hk) as [a ->]. by eexists.
Qed.

Lemma min_repeat_sound p s bol k a :
  min_repeat p bol s k = Some a →
  ∃ m rest, s = m ++ rest ∧ Forall (λ c, p c = true) m
            ∧ k (bol_after bol m) rest = Some a.
Proof.
  revert bol. induction s as [|c s IH]; intros bol; simpl.
  - destruct (k bol []) eqn:Hk; [|done]. intros [= <-]. by exists [], [].
  - destruct (k bol (c :: s)) eqn:Hk.
    + intros [= <-]. by exists [], (c :: s).
    + destruct (p c) eqn:Hp; [|done]. intros Hrec.
      destruct (IH _ Hrec) as (m & rest & -> & Hm & Hk').
      exists (c :: m), rest. rewrite bol_after_cons.
      split; [done|]. split; [by constructor|done].
Qed.

Lemma min_repeat_complete p m rest bol k :
  Forall (λ c, p c = true) m →
  is_Some (k (bol_after bol m) rest) →
  is_Some (min_repeat p bol (m ++ rest) k).
Proof.
  revert bol. induction m as [|c m IH]; intros bol Hm Hk.
  - rewrite bol_after_nil in Hk. destruct Hk as [a Hk].
  destruct rest; simpl; rewrite Hk; by eexists.
  - inversion_clear Hm as [|?? Hc Hm']. rewrite bol_after_cons in Hk.
    simpl. destruct (k bol (c :: m ++ rest)); [by eexists|].
    rewrite Hc. by apply IH.
Qed.
End MatcherFacts.

Lemma rmatch_sound {A} (r : regex) :
  ∀ bol s (k : bool → text → option A) a,
    rmatch r bol s k = Some a →
    ∃ m rest, s = m ++ rest ∧ denote r bol m rest
              ∧ k (bol_after bol m) rest = Some a.
Proof.
  induction r as [|c|p| | |p|p|r1 IH1 r2 IH2]; intros bol s k a; simpl.
  - intros H. by exists [], s.
  - destruct s as [|x s]; [done|]. destruct (N.eqb_spec x c) as [->|]; [|done].
    intros H. by exists [c], s.
  - destruct s as [|x s]; [done|]. destruct (p x) eqn:Hp; [|done].
    intros H. exists [x], s. split; [done|]. split; [by exists x|done].
  - destruct bol; [|done]. intros H. by exists [], s.
  - destruct s as [|x s].
    + intros H. exists [], []. split; [done|]. split; [|done]. split; [done|by left].
    + destruct (N.eqb_spec x NL) as [->|Hne]; unfold is_linebreak.
      * rewrite N.eqb_refl. intros H. exists [], (NL :: s).
        split; [done|]. split; [|done]. split; [done|right; by eexists].
      * apply N.eqb_neq in Hne. by rewrite Hne.
  - apply max_repeat_sound.
  - destruct s as [|x s]; [done|]. destruct (p x) eqn:Hp; [|done].
    intros H. destruct (min_repeat_sound _ _ _ _ _ H) as (m & rest & -> & Hm & Hk).
    exists (x :: m), rest. rewrite bol_after_cons.
    split; [done|]. split; [|done]. split; [done|by constructor].
  - intros H. destruct (IH1 _ _ _ _ H) as (m1 & rest1 & -> & H1 & Hk1).
    destruct (IH2 _ _ _ _ Hk1) as (m2 & rest & -> & H2 & Hk).
    exists (m1 ++ m2), rest. rewrite bol_after_app, <- (assoc_L (++)).
    split; [done|]. split; [|done]. by exists m1, m2.
Qed.

Lemma rmatch_complete {A} (r : regex) :
  ∀ bol m rest (k : bool → text → option A),
    denote r bol m rest →
    is_Some (k (bol_after bol m) rest) →
    is_Some (rmatch r bol (m ++ rest) k).
Proof.
  induction r as [|c|p| | |p|p|r1 IH1 r2 IH2]; intros bol m rest k; simpl.
  - by intros ->.
  - intros -> Hk. simpl. by rewrite N.eqb_refl.
  - intros (c & -> & Hp) Hk. simpl. by rewrite Hp.
  - by intros [-> ->].
  - by intros [-> [->|[r ->]]].
  - apply max_repeat_complete.
  - intros [Hne Hm]. destruct m as [|x m]; [done|].
    inversion_clear Hm as [|?? Hx Hm']. rewrite bol_after_cons.
    simpl. rewrite Hx. by apply min_repeat_complete.
  - intros (m1 & m2 & -> & H1 & H2) Hk. rewrite <- (assoc_L (++)).
    apply IH1; [done|]. apply IH2; [done|]. by rewrite <- bol_after_app.
Qed.

(** ** Facts about [search] *)

Lemma match_here_sound r bol s rest :
  match_here r bol s = Some rest →
  ∃ m, s = m ++ rest ∧ denote r bol m rest.
Proof.
  intros H. apply rmatch_sound in H as (m & rest' & -> & Hd & [= ->]).
  by exists m.
Qed.

Lemma match_here_complete r bol m rest :
  denote r bol m rest → is_Some (match_here r bol (m ++ rest)).
Proof. intros H. by apply rmatch_complete. Qed.

Lemma search_from_Some r s : ∀ bol pos i j,
  search_from r bol s pos = Some (i, j) →
  ∃ pre m rest,
    s = pre ++ m ++ rest ∧ i = (pos + length pre)%nat ∧ j = (i + length m)%nat
    ∧ denote r (bol_after bol pre) m rest
    ∧ ∀ pre' m' rest', s = pre' ++ m' ++ rest' →
        (length pre' < length pre)%nat → ¬ denote r (bol_after bol pre') m' rest'.
Proof.
  induction s as [|c s IH]; intros bol pos i j; simpl.
  - destruct (match_here r bol []) as [rest|] eqn:Hm; [|done].
    intros [= <- <-]. apply match_here_sound in Hm as (m & Hs & Hd).
    symmetry in Hs. apply app_eq_nil in Hs as [-> ->].
    exists [], [], []. split_and!; [done|simpl; lia|simpl; lia|done|].
    intros ??? _ Hlt. simpl in Hlt. lia.
  - destruct (match_here r bol (c :: s)) as [rest|] eqn:Hm.
    + intros [= <- <-]. apply match_here_sound in Hm as (m & Hs & Hd).
      assert (length (c :: s) = length m + length rest)%nat as Hlen
        by (by rewrite Hs, length_app).
      exists [], m, rest. simpl in Hlen.
      split_and!; [done|simpl; lia|simpl; lia|done|].
      intros ??? _ Hlt. simpl in Hlt. lia.
    + intros H. apply IH in H as (pre & m & rest & -> & -> & -> & Hd & Hleft).
      exists (c :: pre), m, rest. rewrite bol_after_cons.
      split_and!; [done|simpl; lia|simpl; lia|done|].
      intros pre' m' rest' Hs Hlt Hd'. destruct pre' as [|c' pre'].
      * simpl in Hs. rewrite bol_after_nil in Hd'. apply match_here_complete in Hd'.
        rewrite <- Hs, Hm in Hd'. by destruct Hd'.
      * simpl in Hs. injection Hs as <- Hs. rewrite bol_after_cons in Hd'.
        apply (Hleft _ _ _ Hs); [simpl in Hlt; lia|done].
Qed.

Lemma search_from_None r s : ∀ bol pos,
  search_from r bol s pos = None →
  ∀ pre m rest, s = pre ++ m ++ rest → ¬ denote r (bol_after bol pre) m rest.
Proof.
  induction s as [|c s IH]; intros bol pos; simpl.
  - destruct (match_here r bol []) as [rest|] eqn:Hm; [done|].
    intros _ pre m rest Hs Hd. symmetry in Hs.
    apply app_eq_nil in Hs as [-> Hs]. apply app_eq_nil in Hs as [-> ->].
    rewrite bol_after_nil in Hd. apply match_here_complete in Hd. simpl in Hd. rewrite Hm in Hd. by destruct Hd.
  - destruct (match_here r bol (c :: s)) as [rest|] eqn:Hm; [done|].
    intros H pre m rest Hs Hd. destruct pre as [|c' pre].
    + simpl in Hs. rewrite bol_after_nil in Hd. apply match_here_complete in Hd.
      rewrite <- Hs, Hm in Hd. by destruct Hd.
    + simpl in Hs. injection Hs as <- Hs. rewrite bol_after_cons in Hd.
      by apply (IH _ _ H _ _ _ Hs).
Qed.

(** Offsets and splits. *)
Lemma matches_at_split r s p :
  matches_at r s p ↔
  ∃ pre m rest, s = pre ++ m ++ rest ∧ length pre = p
                ∧ denote r (bol_after true pre) m rest.
Proof.
  split.
  - intros (Hp & m & rest & Hs & Hd). exists (take p s), m, rest.
    rewrite <- Hs, take_drop, length_take. split_and!; [done|lia|done].
  - intros (pre & m & rest & -> & <- & Hd). split.
    + rewrite length_app. lia.
    + exists m, rest. by rewrite drop_app_length, take_app_length.
Qed.

(** [search] returns the leftmost offset at which the pattern matches. *)
Lemma search_Some r s i j :
  search r s = Some (i, j) →
  (i ≤ j ≤ length s)%nat
  ∧ (∃ m rest, drop i s = m ++ rest ∧ length m = (j - i)%nat
               ∧ denote r (bol_after true (take i s)) m rest)
  ∧ ∀ p, (p < i)%nat → ¬ matches_at r s p.
Proof.
  intros H. apply search_from_Some in H as (pre & m & rest & -> & -> & -> & Hd & Hleft).
  simpl. rewrite !length_app. split; [lia|]. split.
  - exists m, rest. rewrite drop_app_length, take_app_length. split; [done|]. split; [lia|done].
  - intros p Hp (pre' & m' & rest' & Hs & <- & Hd')%matches_at_split.
    by apply (Hleft _ _ _ Hs).
Qed.

Lemma search_Some_matches r s i j :
  search r s = Some (i, j) → matches_at r s i.
Proof.
  intros (Hle & (m & rest & Hs & _ & Hd) & _)%search_Some.
  split; [lia|]. by exists m, rest.
Qed.

Lemma search_None r s :
  search r s = None ↔ ∀ p, ¬ matches_at r s p.
Proof.
  split.
  - intros H p (pre & m & rest & Hs & _ & Hd)%matches_at_split.
    by apply (search_from_None _ _ _ _ H _ _ _ Hs).
  - intros Hno. destruct (search r s) as [[i j]|] eqn:H; [|done].
    apply search_Some_matches in H. by apply Hno in H.
Qed.

Lemma search_leftmost r s p :
  matches_at r s p →
  ∃ i j, search r s = Some (i, j) ∧ (i ≤ p)%nat.
Proof.
  intros Hp. destruct (search r s) as [[i j]|] eqn:H.
  - exists i, j. split; [done|]. apply search_Some in H as (_ & _ & Hleft).
    destruct (decide (i ≤ p)%nat); [done|]. exfalso. apply (Hleft p); [lia|done].
  - exfalso. by apply (proj1 (search_None _ _) H p).
Qed.

(** Right-nested appends, with the conses pushed to the front. *)
Ltac norm_app :=
  repeat (rewrite <- app_assoc || rewrite <- app_comm_cons).

(** ** What the three patterns of the patcher match *)

Lemma denote_escape s : ∀ bol m rest, denote (escape s) bol m rest ↔ m = s.
Proof.
  induction s as [|c s IH]; intros bol m rest; simpl; [done|]. split.
  - intros (m1 & m2 & -> & -> & H2). apply IH in H2 as ->. done.
  - intros ->. exists [c], s. split; [done|]. split; [done|]. by apply IH.
Qed.

Lemma denote_section_re section bol m rest :
  denote (section_re section) bol m rest ↔
  bol = true ∧ ∃ ws, m = LBRACKET :: section ++ RBRACKET :: ws
                     ∧ Forall (λ c, isspace c = true) ws ∧ at_eol rest.
Proof.
  unfold section_re. simpl. split.
  - intros (m1 & m2 & -> & [-> ->] & m3 & m4 & -> & -> & m5 & m6 & ->
            & ->%denote_escape & m7 & m8 & -> & -> & ws & m9 & -> & Hws & -> & Heol).
    split; [done|]. exists ws. by rewrite app_nil_r.
  - intros (-> & ws & -> & Hws & Heol).
    exists [], (LBRACKET :: section ++ RBRACKET :: ws). split_and!; [done..|].
    exists [LBRACKET], (section ++ RBRACKET :: ws). split_and!; [done..|].
    exists section, (RBRACKET :: ws). split_and!; [done|by apply denote_escape|].
    exists [RBRACKET], ws. split_and!; [done..|].
    exists ws, []. by rewrite app_nil_r.
Qed.

Lemma denote_next_section_re bol m rest :
  denote next_section_re bol m rest ↔
  bol = true ∧ ∃ name ws, m = LBRACKET :: name ++ RBRACKET :: ws
                          ∧ name ≠ [] ∧ Forall (λ c, any_but_newline c = true) name
                          ∧ Forall (λ c, isspace c = true) ws ∧ at_eol rest.
Proof.
  unfold next_section_re. simpl. split.
  - intros (m1 & m2 & -> & [-> ->] & m3 & m4 & -> & -> & name & m6 & ->
            & [Hne Hname] & m7 & m8 & -> & -> & ws & m9 & -> & Hws & -> & Heol).
    split; [done|]. exists name, ws. by rewrite app_nil_r.
  - intros (-> & name & ws & -> & Hne & Hname & Hws & Heol).
    exists [], (LBRACKET :: name ++ RBRACKET :: ws). split_and!; [done..|].
    exists [LBRACKET], (name ++ RBRACKET :: ws). split_and!; [done..|].
    exists name, (RBRACKET :: ws). split_and!; [done..|].
    exists [RBRACKET], ws. split_and!; [done..|].
    exists ws, []. by rewrite app_nil_r.
Qed.

Lemma denote_key_re key bol m rest :
  denote (key_re key) bol m rest ↔
  bol = true ∧ ∃ ws1 ws2 ws3 val, m = ws1 ++ key ++ ws2 ++ EQUALS :: ws3 ++ val
      ∧ Forall (λ c, isspace c = true) ws1 ∧ Forall (λ c, isspace c = true) ws2
      ∧ Forall (λ c, isspace c = true) ws3
      ∧ Forall (λ c, any_but_newline c = true) val ∧ at_eol rest.
Proof.
  unfold key_re. simpl. split.
  - intros (m1 & m2 & -> & [-> ->] & ws1 & m4 & -> & Hws1 & k & m6 & ->
            & ->%denote_escape & ws2 & m8 & -> & Hws2 & m9 & m10 & -> & ->
            & ws3 & m12 & -> & Hws3 & val & m14 & -> & Hval & -> & Heol).
    split; [done|]. exists ws1, ws2, ws3, val. by rewrite app_nil_r.
  - intros (-> & ws1 & ws2 & ws3 & val & -> & Hws1 & Hws2 & Hws3 & Hval & Heol).
    exists [], (ws1 ++ key ++ ws2 ++ EQUALS :: ws3 ++ val). split_and!; [done..|].
    exists ws1, (key ++ ws2 ++ EQUALS :: ws3 ++ val). split_and!; [done..|].
    exists key, (ws2 ++ EQUALS :: ws3 ++ val). split_and!; [done|by apply denote_escape|].
    exists ws2, (EQUALS :: ws3 ++ val). split_and!; [done..|].
    exists [EQUALS], (ws3 ++ val). split_and!; [done..|].
    exists ws3, val. split_and!; [done..|].
    exists val, []. by rewrite app_nil_r.
Qed.

Lemma section_re_matches_at section conf p :
  matches_at (section_re section) conf p ↔ section_header_at section conf p.
Proof.
  unfold matches_at, section_header_at, line_start. split.
  - intros (Hp & m & rest & Hs & (Hbol & ws & -> & Hws & Heol)%denote_section_re).
    split; [done|]. exists ws, rest. split; [|done].
    rewrite Hs. simpl. by rewrite <- !(assoc_L (++)).
  - intros ((Hp & Hbol) & ws & rest & Hs & Hws & Heol). split; [done|].
    exists (LBRACKET :: section ++ RBRACKET :: ws), rest. split.
    + rewrite Hs. simpl. by rewrite <- !(assoc_L (++)).
    + apply denote_section_re. split; [done|]. by exists ws.
Qed.

Lemma next_section_re_matches_at conf p :
  matches_at next_section_re conf p ↔ header_at conf p.
Proof.
  unfold matches_at, header_at, line_start. split.
  - intros (Hp & m & rest & Hs
            & (Hbol & name & ws & -> & Hne & Hname & Hws & Heol)%denote_next_section_re).
    split; [done|]. exists name, ws, rest. split; [|done].
    rewrite Hs. simpl. by rewrite <- !(assoc_L (++)).
  - intros ((Hp & Hbol) & name & ws & rest & Hs & Hne & Hname & Hws & Heol).
    split; [done|]. exists (LBRACKET :: name ++ RBRACKET :: ws), rest. split.
    + rewrite Hs. simpl. by rewrite <- !(assoc_L (++)).
    + apply denote_next_section_re. split; [done|]. by exists name, ws.
Qed.

Lemma key_re_matches_at key block p :
  matches_at (key_re key) block p ↔ key_match_at key block p.
Proof.
  unfold matches_at, key_match_at, line_start. split.
  - intros (Hp & m & rest & Hs
            & (Hbol & ws1 & ws2 & ws3 & val & -> & H1 & H2 & H3 & Hv & Heol)%denote_key_re).
    split; [done|]. exists ws1, ws2, ws3, val, rest. split; [|done].
    rewrite Hs. by norm_app.
  - intros ((Hp & Hbol) & ws1 & ws2 & ws3 & val & rest & Hs & H1 & H2 & H3 & Hv & Heol).
    split; [done|]. exists (ws1 ++ key ++ ws2 ++ EQUALS :: ws3 ++ val), rest. split.
    + rewrite Hs. by norm_app.
    + apply denote_key_re. split; [done|]. by exists ws1, ws2, ws3, val.
Qed.

(** ** Replacement templates without a backslash *)

Lemma parse_template_fuel_literal fuel : ∀ s,
  (length s ≤ fuel)%nat → BACKSLASH ∉ s →
  parse_template_fuel fuel s = Some (TLiteral <$> s).
Proof.
  induction fuel as [|fuel IH]; intros [|c s] Hlen Hno; simpl in *; try done; [lia|].
  apply not_elem_of_cons in Hno as [Hc Hs].
  apply N.eqb_neq in Hc. rewrite N.eqb_sym in Hc. rewrite Hc. simpl.
  rewrite IH by (done || lia). done.
Qed.

Lemma parse_template_literal s :
  BACKSLASH ∉ s → parse_template s = Some (TLiteral <$> s).
Proof. intros H. by apply parse_template_fuel_literal. Qed.

(** The template compiler rejects only replacements that hold a backslash. *)
Lemma parse_template_None s : parse_template s = None → BACKSLASH ∈ s.
Proof.
  intros H. destruct (decide (BACKSLASH ∈ s)) as [|Hno]; [done|].
  by rewrite parse_template_literal in H.
Qed.

Lemma expand_template_literal s whole :
  expand_template (TLiteral <$> s) whole = s.
Proof.
  unfold expand_template. induction s as [|c s IH]; [done|].
  rewrite fmap_cons, bind_cons. simpl. by f_equal.
Qed.

Lemma sub1_literal r repl s i j :
  BACKSLASH ∉ repl → search r s = Some (i, j) →
  sub1 r repl s = Some (take i s ++ repl ++ drop j s).
Proof.
  intros Hno Hs. unfold sub1.
  by rewrite (parse_template_literal _ Hno), Hs, expand_template_literal.
Qed.

(** ** The structure of [ensure_line_in_section] *)

Lemma at_eol_not_bracket rest r : at_eol rest → rest ≠ LBRACKET :: r.
Proof. by intros [->|[r' ->]]. Qed.

Lemma bol_after_nonempty b b' m : m ≠ [] → bol_after b m = bol_after b' m.
Proof. unfold bol_after. intros Hm. destruct (last m) eqn:E; [done|]. by apply last_None in E. Qed.

(** A match seen from a later offset of the subject. *)
Lemma matches_at_drop r s n q :
  (n < q)%nat → matches_at r s q → matches_at r (drop n s) (q - n).
Proof.
  intros Hlt (Hq & m & rest & Hs & Hd). split.
  - rewrite length_drop. lia.
  - exists m, rest. rewrite drop_drop. replace (n + (q - n))%nat with q by lia.
    split; [done|].
    replace (take q s) with (take n s ++ take (q - n) (drop n s)) in Hd.
    + rewrite bol_after_app in Hd.
      rewrite (bol_after_nonempty _ true) in Hd; [done|].
      intros Hnil%(f_equal length). rewrite length_take, length_drop in Hnil.
      simpl in Hnil. lia.
    + rewrite <- (take_drop n s) at 3. rewrite take_app_ge by (rewrite length_take; lia).
      rewrite length_take. do 2 f_equal. lia.
Qed.

(** The first header of the section is the one that [search] finds; the match
    ends after the white space that follows the header, in front of a line
    break or of the end of the text. *)
Lemma search_first_section_header conf section p :
  first_section_header section conf p →
  ∃ start ws,
    search (section_re section) conf = Some (p, start)
    ∧ start = (header_end section p + length ws)%nat
    ∧ (start ≤ length conf)%nat
    ∧ Forall (λ c, isspace c = true) ws
    ∧ drop (header_end section p) conf = ws ++ drop start conf
    ∧ at_eol (drop start conf).
Proof.
  intros [Hp Hfirst].
  destruct (search_leftmost (section_re section) conf p) as (i & start & Hsearch & Hle).
  { by apply section_re_matches_at. }
  assert (i = p) as ->.
  { destruct (decide (i = p)) as [|Hne]; [done|]. exfalso.
    apply (Hfirst i); [lia|].
    apply section_re_matches_at. by eapply search_Some_matches. }
  pose proof (search_Some _ _ _ _ Hsearch) as (Hbounds & (m & rest & Hs & Hlen & Hd) & _).
  apply denote_section_re in Hd as (_ & ws & -> & Hws & Heol).
  assert (length (LBRACKET :: section ++ RBRACKET :: ws)
          = length (LBRACKET :: section ++ [RBRACKET]) + length ws)%nat as Hl.
  { simpl. rewrite !length_app. simpl. lia. }
  assert (drop start conf = rest) as Hrest.
  { replace start with (p + length (LBRACKET :: section ++ RBRACKET :: ws))%nat by lia.
    by rewrite <- drop_drop, Hs, drop_app_length. }
  exists start, ws. unfold header_end. split_and!; [done|lia|lia|done| |by rewrite Hrest].
  rewrite <- drop_drop, Hs, Hrest.
  replace (LBRACKET :: section ++ RBRACKET :: ws)
    with ((LBRACKET :: section ++ [RBRACKET]) ++ ws) by (by norm_app).
  by rewrite <- app_assoc, drop_app_length.
Qed.

(** The block of the section ends inside the text, at or before any header
    line that begins after its start. *)
Lemma block_end_bounds conf start :
  (start ≤ length conf)%nat →
  (start ≤ block_end conf start ≤ length conf)%nat.
Proof.
  intros Hstart. unfold block_end.
  destruct (search next_section_re (drop start conf)) as [[i j]|] eqn:H.
  - apply search_Some in H as (Hb & _). rewrite length_drop in Hb. lia.
  - rewrite length_drop. lia.
Qed.


Lemma ensure_missing conf section key value :
  search (section_re section) conf = None →
  ensure_line_in_section conf section key value
  = Some ((if endswith_nl conf then conf else conf ++ [NL])
          ++ NL :: LBRACKET :: section ++ RBRACKET :: NL
                :: key_value key value ++ [NL]).
Proof. intros H. unfold ensure_line_in_section. by rewrite H. Qed.

Lemma ensure_found conf section key value hs start :
  search (section_re section) conf = Some (hs, start) →
  ensure_line_in_section conf section key value
  = (block ← upsert (slice start (block_end conf start) conf) key value;
     Some (take start conf ++ block ++ drop (block_end conf start) conf)).
Proof. intros H. unfold ensure_line_in_section. by rewrite H. Qed.

(** The patcher raises only through the template compiler of [re.sub]. *)
Lemma upsert_None block key value :
  upsert block key value = None → parse_template (key_value key value) = None.
Proof.
  unfold upsert, sub1. destruct (search (key_re key) block) as [[i j]|]; [|done].
  by destruct (parse_template (key_value key value)).
Qed.

Lemma ensure_None conf section key value :
  ensure_line_in_section conf section key value = None →
  parse_template (key_value key value) = None.
Proof.
  unfold ensure_line_in_section.
  destruct (search (section_re section) conf) as [[hs start]|]; [|done].
  destruct (upsert _ key value) eqn:H; [done|]. intros _. by eapply upsert_None.
Qed.



Lemma take_prefix_of_later {B} (l : list B) n m :
  (n ≤ m)%nat → take n l `prefix_of` take m l.
Proof.
  intros Hle. replace (take n l) with (take n (take m l)).
  - apply prefix_take.
  - rewrite take_take. f_equal. lia.
Qed.

(** ** Properties of the patcher *)

(** Without a backslash in [key=value] the patcher returns, and its result
    holds [key=value] literally, in the three branches alike. *)
Lemma ensure_holds_key_value conf section key value :
  BACKSLASH ∉ key_value key value →
  ∃ pre post,
    ensure_line_in_section conf section key value
    = Some (pre ++ key_value key value ++ post).
Proof.
  intros Hno. unfold ensure_line_in_section.
  destruct (search (section_re section) conf) as [[hs start]|].
  - unfold upsert. destruct (search (key_re key) _) as [[i j]|] eqn:Hkey.
    + rewrite (sub1_literal _ _ _ _ _ Hno Hkey). simpl.
      eexists (take start conf ++ take i _), (drop j _ ++ drop _ conf).
      by norm_app.
    + simpl. eexists (take start conf ++ if endswith_nl _ then _ else _), ([NL] ++ drop _ conf).
      by norm_app.
  - eexists ((if endswith_nl conf then conf else conf ++ [NL])
             ++ NL :: LBRACKET :: section ++ [RBRACKET; NL]), [NL].
    by norm_app.
Qed.

Lemma no_section_header conf section :
  search (section_re section) conf = None ↔ ∀ p, ¬ section_header_at section conf p.
Proof.
  rewrite search_None. split; intros H p Hp; apply (H p); by apply section_re_matches_at.
Qed.

Lemma no_key_match key block :
  search (key_re key) block = None ↔ ∀ p, ¬ key_match_at key block p.
Proof.
  rewrite search_None. split; intros H p Hp; apply (H p); by apply key_re_matches_at.
Qed.

(** C5. Without a header line for the section, the patcher returns the input,
    completed by a line break when it does not end with one, followed by
    exactly the new section block: a line break, the header, the key line. *)
Theorem section_created_when_missing conf section key value :
  (∀ p, ¬ section_header_at section conf p) →
  ensure_line_in_section conf section key value
  = Some ((if endswith_nl conf then conf else conf ++ [NL])
          ++ [NL] ++ (LBRACKET :: section ++ [RBRACKET]) ++ [NL]
          ++ key_value key value ++ [NL]).
Proof.
  intros Hno%no_section_header. rewrite (ensure_missing _ _ _ _ Hno).
  do 2 f_equal. simpl. by norm_app.
Qed.

(** C6, as the code has it. When the section exists and the key pattern
    matches nowhere in its block, the patcher appends the key line and a line
    break to the end of the block, and puts a line break in front of the key
    line if and only if the block does not already end with one -- an empty
    block included.  The block itself and the text around it are kept. *)
Theorem key_appended_when_absent conf section key value start end_ :
  section_block_range conf section = Some (start, end_) →
  (∀ p, ¬ key_match_at key (slice start end_ conf) p) →
  ensure_line_in_section conf section key value
  = Some (take start conf
          ++ (slice start end_ conf
              ++ (if endswith_nl (slice start end_ conf) then [] else [NL])
              ++ key_value key value ++ [NL])
          ++ drop end_ conf).
Proof.
  unfold section_block_range.
  destruct (search (section_re section) conf) as [[hs st]|] eqn:Hsearch; [|done].
  intros [= <- <-] Hno%no_key_match.
  rewrite (ensure_found _ _ _ _ _ _ Hsearch). unfold upsert. rewrite Hno. simpl.
  do 2 f_equal. destruct (endswith_nl _); by norm_app.
Qed.

(** ** Runs of the patch operations *)

Lemma bak_path_neq ts : bak_path GDM_CUSTOM_CONF ts ≠ GDM_CUSTOM_CONF.
Proof. unfold bak_path, GDM_CUSTOM_CONF. simpl. discriminate. Qed.

Lemma backup_file_missing path w :
  files w !! path = None →
  backup_file path w = (Raise (FileNotFoundError path), w).
Proof.
  intros H. unfold backup_file, mbind, io_bind, path_exists. rewrite H.
  rewrite bool_decide_eq_false_2; [done|]. by intros [? ?].
Qed.

Lemma backup_file_present w old :
  files w !! GDM_CUSTOM_CONF = Some old →
  backup_file GDM_CUSTOM_CONF w
  = (Return (bak_path GDM_CUSTOM_CONF (clock w)), backed_up_world w old).
Proof.
  intros H. unfold backup_file, mbind, io_bind, path_exists. rewrite H.
  rewrite bool_decide_eq_true_2 by (by eexists). simpl.
  unfold strftime_now, copy2. rewrite H. simpl.
  unfold backed_up_world. by rewrite <- app_assoc.
Qed.

Lemma backed_up_lookup w old :
  files (backed_up_world w old) !! GDM_CUSTOM_CONF = files w !! GDM_CUSTOM_CONF.
Proof. simpl. apply lookup_insert_ne, bak_path_neq. Qed.

Lemma disable_wayland_run w old :
  files w !! GDM_CUSTOM_CONF = Some old →
  disable_wayland_in_gdm w
  = match wayland_transform old with
    | Some new =>
        (Return (), patched_world w old new MSG_WAYLAND_UPDATED MSG_WAYLAND_NO_CHANGE)
    | None => (Raise ReError, backed_up_world w old)
    end.
Proof.
  intros H. unfold disable_wayland_in_gdm, mbind, io_bind.
  rewrite (backup_file_present _ _ H). unfold read_text.
  rewrite backed_up_lookup, H. unfold wayland_transform.
  destruct (ensure_line_in_section old _ _ _) as [new|]; simpl; [|done].
  unfold patched_world, print. case_bool_decide; simpl; [|done].
  by rewrite <- app_assoc.
Qed.

Lemma enable_autologin_run user w old :
  files w !! GDM_CUSTOM_CONF = Some old →
  enable_gdm_autologin user w
  = match autologin_transform user old with
    | Some new =>
        (Return (), patched_world w old new (MSG_AUTOLOGIN_UPDATED user)
                                  MSG_AUTOLOGIN_NO_CHANGE)
    | None => (Raise ReError, backed_up_world w old)
    end.
Proof.
  intros H. unfold enable_gdm_autologin, mbind, io_bind.
  rewrite (backup_file_present _ _ H). unfold read_text.
  rewrite backed_up_lookup, H. unfold autologin_transform.
  destruct (ensure_line_in_section old _ _ _) as [conf1|]; simpl; [|done].
  destruct (ensure_line_in_section conf1 _ _ _) as [new|]; simpl; [|done].
  unfold patched_world, print. case_bool_decide; simpl; [|done].
  by rewrite <- app_assoc.
Qed.

Lemma upsert_is_Some block key value :
  is_Some (parse_template (key_value key value)) →
  is_Some (upsert block key value).
Proof.
  intros [t Ht]. unfold upsert, sub1. rewrite Ht.
  by destruct (search (key_re key) block) as [[i j]|].
Qed.

Lemma ensure_is_Some conf section key value :
  is_Some (parse_template (key_value key value)) →
  is_Some (ensure_line_in_section conf section key value).
Proof.
  intros Ht. unfold ensure_line_in_section.
  destruct (search (section_re section) conf) as [[hs start]|]; [|done].
  by destruct (upsert_is_Some (slice start (block_end conf start) conf) key value Ht)
    as [block ->].
Qed.

Lemma wayland_transform_is_Some conf : is_Some (wayland_transform conf).
Proof. apply ensure_is_Some. vm_compute. by eexists. Qed.

Lemma patched_world_spec w old new updated no_change :
  files w !! GDM_CUSTOM_CONF = Some old →
  ∃ evs,
    trace (patched_world w old new updated no_change) = trace w ++ evs
    ∧ files (patched_world w old new updated no_change) !! GDM_CUSTOM_CONF = Some new
    ∧ if bool_decide (new = old)
      then no_write evs ∧ reports evs no_change
      else EvWrite GDM_CUSTOM_CONF new ∈ evs ∧ reports evs updated.
Proof.
  intros H. unfold patched_world.
  destruct (decide (new = old)) as [->|Hne].
  - rewrite bool_decide_eq_false_2 by (by intros ?). rewrite bool_decide_eq_true_2 by done.
    eexists. split; [simpl; by rewrite <- app_assoc|].
    split; [by rewrite <- H, <- (backed_up_lookup w old)|]. split; [|done].
    intros path content Hin. simpl in Hin.
    repeat (apply elem_of_cons in Hin as [Hin|Hin]; [done|]). by apply elem_of_nil in Hin.
  - rewrite bool_decide_eq_true_2 by done. rewrite bool_decide_eq_false_2 by done.
    eexists. split; [simpl; by rewrite <- app_assoc|].
    split; [simpl; apply lookup_insert_eq|]. split; [|done].
    simpl. do 2 apply list_elem_of_further. apply list_elem_of_here.
Qed.

Lemma backed_up_world_no_write w old :
  files w !! GDM_CUSTOM_CONF = Some old →
  ∃ evs,
    trace (backed_up_world w old) = trace w ++ evs
    ∧ files (backed_up_world w old) !! GDM_CUSTOM_CONF = Some old
    ∧ no_write evs.
Proof.
  intros H. eexists. split; [reflexivity|]. split; [by rewrite backed_up_lookup|].
  intros path content Hin.
  repeat (apply elem_of_cons in Hin as [Hin|Hin]; [done|]). by apply elem_of_nil in Hin.
Qed.

(** C8. Each patch operation writes the file exactly when the transformed
    text differs from the current content.  If the text is the same, nothing
    is written, the file keeps its content and the run reports no change;
    otherwise the file is overwritten with the new text.  Either way the file
    ends up holding the transformed text.  A run whose transformation raises
    writes nothing; the transformation of [disable_wayland_in_gdm] never
    raises. *)
Theorem write_only_when_changed :
  writes_iff_changed disable_wayland_in_gdm wayland_transform
    MSG_WAYLAND_UPDATED MSG_WAYLAND_NO_CHANGE
  ∧ (∀ conf, is_Some (wayland_transform conf))
  ∧ ∀ user,
      writes_iff_changed (enable_gdm_autologin user) (autologin_transform user)
        (MSG_AUTOLOGIN_UPDATED user) MSG_AUTOLOGIN_NO_CHANGE.
Proof.
  split_and!.
  - intros w old H. rewrite (disable_wayland_run _ _ H).
    destruct (wayland_transform old) as [new|].
    + destruct (patched_world_spec w old new MSG_WAYLAND_UPDATED MSG_WAYLAND_NO_CHANGE H)
        as (evs & Htr & Hfile & Hevs).
      by eexists _, evs.
    + destruct (backed_up_world_no_write w old H) as (evs & Htr & Hfile & Hevs).
      by eexists _, evs.
  - apply wayland_transform_is_Some.
  - intros user w old H. rewrite (enable_autologin_run _ _ _ H).
    destruct (autologin_transform user old) as [new|].
    + destruct (patched_world_spec w old new (MSG_AUTOLOGIN_UPDATED user)
                  MSG_AUTOLOGIN_NO_CHANGE H) as (evs & Htr & Hfile & Hevs).
      by eexists _, evs.
    + destruct (backed_up_world_no_write w old H) as (evs & Htr & Hfile & Hevs).
      by eexists _, evs.
Qed.

Lemma backed_up_world_spec w old :
  files (backed_up_world w old) !! bak_path GDM_CUSTOM_CONF (clock w) = Some old.
Proof. simpl. apply lookup_insert_eq. Qed.

Lemma patched_world_backup w old new updated no_change :
  let backup := bak_path GDM_CUSTOM_CONF (clock w) in
  ∃ evs,
    trace (patched_world w old new updated no_change)
    = trace w ++ EvCopy GDM_CUSTOM_CONF backup :: evs
    ∧ (∀ src dst, EvCopy src dst ∉ evs)
    ∧ files (patched_world w old new updated no_change) !! backup = Some old.
Proof.
  intros backup. unfold patched_world. case_bool_decide.
  - eexists. split; [simpl; rewrite <- app_assoc; reflexivity|]. split.
    + intros src dst Hin.
      repeat (apply elem_of_cons in Hin as [Hin|Hin]; [done|]). by apply elem_of_nil in Hin.
    + simpl. rewrite lookup_insert_ne by (symmetry; apply bak_path_neq).
      apply lookup_insert_eq.
  - eexists. split; [simpl; rewrite <- app_assoc; reflexivity|]. split.
    + intros src dst Hin.
      repeat (apply elem_of_cons in Hin as [Hin|Hin]; [done|]). by apply elem_of_nil in Hin.
    + apply backed_up_world_spec.
Qed.

Lemma backed_up_world_backup w old :
  let backup := bak_path GDM_CUSTOM_CONF (clock w) in
  ∃ evs,
    trace (backed_up_world w old) = trace w ++ EvCopy GDM_CUSTOM_CONF backup :: evs
    ∧ (∀ src dst, EvCopy src dst ∉ evs)
    ∧ files (backed_up_world w old) !! backup = Some old.
Proof.
  intros backup. eexists. split; [reflexivity|]. split.
  - intros src dst Hin.
    repeat (apply elem_of_cons in Hin as [Hin|Hin]; [done|]). by apply elem_of_nil in Hin.
  - apply backed_up_world_spec.
Qed.

(** C7. Without the target file, both patch operations raise
    [FileNotFoundError] and change nothing.  With it, the first effect of a
    run is the copy of the file to its timestamped backup path, so the copy
    precedes any write, and the backup holds the content that the file had
    before the run. *)
Theorem backup_precedes_write :
  backup_first disable_wayland_in_gdm
  ∧ ∀ user, backup_first (enable_gdm_autologin user).
Proof.
  split.
  - intros w. destruct (files w !! GDM_CUSTOM_CONF) as [old|] eqn:H.
    + rewrite (disable_wayland_run _ _ H).
      destruct (wayland_transform old) as [new|].
      * destruct (patched_world_backup w old new MSG_WAYLAND_UPDATED MSG_WAYLAND_NO_CHANGE)
          as (evs & ? & ? & ?). by eexists _, _, evs.
      * destruct (backed_up_world_backup w old) as (evs & ? & ? & ?).
        by eexists _, _, evs.
    + unfold disable_wayland_in_gdm, mbind, io_bind.
      by rewrite (backup_file_missing _ _ H).
  - intros user w. destruct (files w !! GDM_CUSTOM_CONF) as [old|] eqn:H.
    + rewrite (enable_autologin_run _ _ _ H).
      destruct (autologin_transform user old) as [new|].
      * destruct (patched_world_backup w old new (MSG_AUTOLOGIN_UPDATED user)
                    MSG_AUTOLOGIN_NO_CHANGE) as (evs & ? & ? & ?). by eexists _, _, evs.
      * destruct (backed_up_world_backup w old) as (evs & ? & ? & ?).
        by eexists _, _, evs.
    + unfold enable_gdm_autologin, mbind, io_bind.
      by rewrite (backup_file_missing _ _ H).
Qed.

(** ** Duplicate headers *)

Lemma line_start_previous conf p :
  line_start conf p → (0 < p)%nat → conf !! (p - 1)%nat = Some NL.
Proof.
  intros [Hle Hbol] Hpos. unfold bol_after in Hbol.
  rewrite last_lookup, length_take, lookup_take_lt in Hbol by lia.
  replace (Init.Nat.pred (p `min` length conf)) with (p - 1)%nat in Hbol by lia.
  destruct (conf !! (p - 1)%nat) as [c|] eqn:Hc.
  - unfold is_linebreak in Hbol. by apply N.eqb_eq in Hbol as ->.
  - apply lookup_ge_None in Hc. lia.
Qed.



(** ** Worked examples and counterexamples *)

Lemma matches_at_here r s p rest :
  (p ≤ length s)%nat →
  match_here r (bol_after true (take p s)) (drop p s) = Some rest →
  matches_at r s p.
Proof.
  intros Hp (m & Hs & Hd)%match_here_sound. split; [done|]. by exists m, rest.
Qed.

(** C4. The end-to-end scenario: patching the two-line [[daemon]] text adds
    the [WaylandEnable=false] line after the existing key; patching the result
    again returns it unchanged, and a run of [disable_wayland_in_gdm] on a file
    that holds it makes the backup, writes nothing and reports no change. *)
Theorem daemon_example :
  ensure_line_in_section example_input DAEMON WAYLAND_ENABLE FALSE
  = Some example_output
  ∧ ensure_line_in_section example_output DAEMON WAYLAND_ENABLE FALSE
    = Some example_output
  ∧ ∀ fs now tr,
      let backup := bak_path GDM_CUSTOM_CONF now in
      disable_wayland_in_gdm (World (<[GDM_CUSTOM_CONF := example_output]> fs) now tr)
      = (Return (),
         World (<[backup := example_output]> (<[GDM_CUSTOM_CONF := example_output]> fs))
               now
               (tr ++ [EvCopy GDM_CUSTOM_CONF backup;
                       EvPrint (MSG_BACKED_UP GDM_CUSTOM_CONF backup);
                       EvPrint MSG_WAYLAND_NO_CHANGE])).
Proof.
  assert (ensure_line_in_section example_output DAEMON WAYLAND_ENABLE FALSE
          = Some example_output) as Hsame by (vm_compute; reflexivity).
  split_and!; [vm_compute; reflexivity|done|].
  intros fs now tr backup.
  rewrite (disable_wayland_run _ example_output) by apply lookup_insert_eq.
  unfold wayland_transform. fold DAEMON WAYLAND_ENABLE FALSE. rewrite Hsame.
  unfold patched_world. rewrite bool_decide_eq_false_2 by (by intros ?).
  unfold backed_up_world. simpl. by rewrite <- app_assoc.
Qed.

(** C1 fails on the code. With the key already in the section, the first
    patch moves the key line onto the header line, so the second patch finds
    no header and appends a new section: the two results differ. *)
Theorem repeated_patch_diverges :
  ensure_line_in_section wayland_on DAEMON WAYLAND_ENABLE FALSE = Some merged_header
  ∧ ensure_line_in_section merged_header DAEMON WAYLAND_ENABLE FALSE
    = Some (merged_header ++ [NL] ++ wayland_off)
  ∧ merged_header ≠ merged_header ++ [NL] ++ wayland_off.
Proof. split_and!; [vm_compute; reflexivity..|discriminate]. Qed.

(** C2 fails on the code. The match of the key pattern starts at the line
    break that ends the header line, not at the key line, so the replacement
    removes that line break; and white space after [=] runs over line breaks,
    so a key with an empty value takes the next line with it. *)
Theorem replace_eats_line_breaks :
  section_block_range wayland_on_spaced DAEMON = Some (8, 30)%nat
  ∧ search (key_re WAYLAND_ENABLE) (slice 8 30 wayland_on_spaced) = Some (0, 21)%nat
  ∧ ensure_line_in_section wayland_on_spaced DAEMON WAYLAND_ENABLE FALSE
    = Some merged_header
  ∧ merged_header ≠ wayland_off
  ∧ ensure_line_in_section empty_value_then_key DAEMON AUTOMATIC_LOGIN (str "gert")
    = Some (str "[daemon]AutomaticLogin=gert" ++ [NL]).
Proof. split_and!; [vm_compute; reflexivity..|discriminate|vm_compute; reflexivity]. Qed.

(** C10 fails on the code. When the key is replaced, [key=value] goes through
    the template compiler of [re.sub]: a value with a backslash makes the
    patcher raise, or is rewritten before it reaches the output. *)
Theorem replacement_is_a_template :
  ensure_line_in_section autologin_gert DAEMON AUTOMATIC_LOGIN (str "CORP\user") = None
  ∧ ensure_line_in_section autologin_gert DAEMON AUTOMATIC_LOGIN (str "x\\y")
    = Some (str "[daemon]AutomaticLogin=x\y" ++ [NL])
  ∧ contains (key_value AUTOMATIC_LOGIN (str "x\\y"))
             (str "[daemon]AutomaticLogin=x\y" ++ [NL]) = false.
Proof. split_and!; vm_compute; reflexivity. Qed.

(** C6 as stated fails on the code: the block of a header that ends the text
    is empty, and the patcher still puts a line break in front of the key
    line. *)
Lemma append_claim_fails_on_empty_block :
  section_block_range bare_header DAEMON = Some (8, 8)%nat
  ∧ slice 8 8 bare_header = []
  ∧ (∀ p, ¬ key_match_at WAYLAND_ENABLE (slice 8 8 bare_header) p)
  ∧ ensure_line_in_section bare_header DAEMON WAYLAND_ENABLE FALSE = Some wayland_off
  ∧ ensure_line_in_section bare_header DAEMON WAYLAND_ENABLE FALSE
    ≠ Some (take 8 bare_header
            ++ append_as_claimed (slice 8 8 bare_header) WAYLAND_ENABLE FALSE
            ++ drop 8 bare_header).
Proof.
  split_and!; [vm_compute; reflexivity..| |vm_compute; reflexivity|vm_compute; discriminate].
  apply no_key_match. vm_compute. reflexivity.
Qed.

(** The creation of a section, on a text that holds [[security]] only. *)
Lemma section_created_witness :
  (∀ p, ¬ section_header_at DAEMON security_only p)
  ∧ ensure_line_in_section security_only DAEMON WAYLAND_ENABLE FALSE
    = Some (security_only ++ [NL] ++ [NL] ++ wayland_off).
Proof.
  assert (∀ p, ¬ section_header_at DAEMON security_only p) as H.
  { apply no_section_header. vm_compute. reflexivity. }
  split; [exact H|].
  exact (section_created_when_missing security_only DAEMON WAYLAND_ENABLE FALSE H).
Defined.

(** The append step on the text of the end-to-end scenario. *)
Lemma key_appended_witness :
  section_block_range example_input DAEMON = Some (8, 36)%nat
  ∧ (∀ p, ¬ key_match_at WAYLAND_ENABLE (slice 8 36 example_input) p)
  ∧ ensure_line_in_section example_input DAEMON WAYLAND_ENABLE FALSE
    = Some example_output.
Proof.
  assert (section_block_range example_input DAEMON = Some (8, 36)%nat) as Hr
    by (vm_compute; reflexivity).
  assert (∀ p, ¬ key_match_at WAYLAND_ENABLE (slice 8 36 example_input) p) as Hk.
  { apply no_key_match. vm_compute. reflexivity. }
  split_and!; [exact Hr|exact Hk|].
  exact (key_appended_when_absent example_input DAEMON WAYLAND_ENABLE FALSE 8 36 Hr Hk).
Defined.

(** A run without the file, and a run of the auto-login patch with it. *)
Lemma backup_precedes_write_witness :
  disable_wayland_in_gdm (World ∅ "20240101_120000" [])
  = (Raise (FileNotFoundError GDM_CUSTOM_CONF), World ∅ "20240101_120000" [])
  ∧ ∃ o w' evs,
      enable_gdm_autologin (str "gert")
        (World {[ GDM_CUSTOM_CONF := example_input ]} "20240101_120000" [])
      = (o, w')
      ∧ trace w' = EvCopy GDM_CUSTOM_CONF "/etc/gdm3/custom.conf.bak_20240101_120000" :: evs
      ∧ (∀ src dst, EvCopy src dst ∉ evs)
      ∧ files w' !! "/etc/gdm3/custom.conf.bak_20240101_120000" = Some example_input.
Proof.
  destruct backup_precedes_write as [Hdisable Henable]. split.
  - exact (Hdisable (World ∅ "20240101_120000" [])).
  - exact (Henable (str "gert")
             (World {[ GDM_CUSTOM_CONF := example_input ]} "20240101_120000" [])).
Defined.

(** A run that changes the file writes the new text and says so. *)
Lemma write_only_when_changed_witness :
  ∃ w' evs,
    trace w' = evs
    ∧ disable_wayland_in_gdm
        (World {[ GDM_CUSTOM_CONF := example_input ]} "20240101_120000" [])
      = (Return (), w')
    ∧ files w' !! GDM_CUSTOM_CONF = Some example_output
    ∧ EvWrite GDM_CUSTOM_CONF example_output ∈ evs
    ∧ reports evs MSG_WAYLAND_UPDATED.
Proof.
  destruct write_only_when_changed as [Hdisable _].
  assert (wayland_transform example_input = Some example_output) as Hnew
    by (vm_compute; reflexivity).
  destruct (Hdisable
              (World {[ GDM_CUSTOM_CONF := example_input ]} "20240101_120000" [])
              example_input)
    as (w' & evs & Htrace & Hrun); [apply lookup_singleton_eq|].
  rewrite Hnew in Hrun. destruct Hrun as (Hrun & Hfile & Hevs).
  rewrite bool_decide_eq_false_2 in Hevs by discriminate.
  exists w', evs. by destruct Hevs.
Defined.

Lemma daemon_header_first conf :
  (8 ≤ length conf)%nat →
  match_here (section_re DAEMON) true conf = Some (drop 8 conf) →
  first_section_header DAEMON conf 0.
Proof.
  intros Hlen Hmatch. split; [|intros p' Hp'; lia].
  apply section_re_matches_at, (matches_at_here _ _ _ (drop 8 conf)); [lia|done].
Qed.

(** C3.  The frame does not hold of the code.  The key pattern begins with
    white space that may be a line break, so a replacement in the block takes
    the line break of the header line with it: the header line of the input,
    which lies outside the body, is not a prefix of the result.  The white
    space after [=] may be a line break too, so a key with an empty value
    takes the next line into the replaced text: a comment line of the input
    is gone from the result.  Neither input is unusual. *)
Theorem frame_broken_by_line_break_slip :
  (ensure_line_in_section wayland_on DAEMON WAYLAND_ENABLE FALSE = Some merged_header
   ∧ first_section_header DAEMON wayland_on 0
   ∧ take (body_start wayland_on 0) wayland_on = str "[daemon]" ++ [NL]
   ∧ ¬ (take (body_start wayland_on 0) wayland_on `prefix_of` merged_header)
   ∧ ¬ outside_section_unchanged wayland_on DAEMON merged_header)
  ∧ (ensure_line_in_section empty_value_then_comment DAEMON AUTOMATIC_LOGIN (str "gert")
     = Some empty_value_then_comment_patched
     ∧ str "# set by the installer" ∈ lines empty_value_then_comment
     ∧ is_comment_line (str "# set by the installer") = true
     ∧ (str "# set by the installer" ∉ lines empty_value_then_comment_patched)
     ∧ ¬ outside_section_unchanged empty_value_then_comment DAEMON
           empty_value_then_comment_patched).
Proof.
  assert (first_section_header DAEMON wayland_on 0) as Hfirst.
  { apply daemon_header_first; [simpl; lia|vm_compute; reflexivity]. }
  assert (¬ (take (body_start wayland_on 0) wayland_on `prefix_of` merged_header)) as Hpre.
  { apply (bool_decide_unpack _). vm_compute. exact I. }
  assert (str "# set by the installer" ∈ lines empty_value_then_comment) as Hin.
  { apply (bool_decide_unpack _). vm_compute. exact I. }
  assert (str "# set by the installer" ∉ lines empty_value_then_comment_patched) as Hout.
  { apply (bool_decide_unpack _). vm_compute. exact I. }
  split.
  - split_and!; [vm_compute; reflexivity|exact Hfirst|vm_compute; reflexivity|exact Hpre|].
    intros (_ & Hframe & _). by destruct (Hframe 0%nat Hfirst) as [? _].
  - split_and!; [vm_compute; reflexivity|exact Hin|reflexivity|exact Hout|].
    intros (_ & _ & Hkept). by apply Hout, Hkept.
Qed.

(** ** Further properties of the patcher *)

(** A match seen from the whole subject, given one in a later part of it. *)
Lemma matches_at_undrop r s n q :
  (n ≤ length s)%nat → (0 < q)%nat →
  matches_at r (drop n s) q → matches_at r s (n + q).
Proof.
  intros Hn Hq (Hle & m & rest & Hs & Hd). rewrite length_drop in Hle. split; [lia|].
  exists m, rest. rewrite drop_drop in Hs. split; [done|].
  rewrite <- take_take_drop, bol_after_app.
  rewrite (bol_after_nonempty _ true); [done|].
  intros Hnil%(f_equal length). rewrite length_take, length_drop in Hnil.
  simpl in Hnil. lia.
Qed.

Lemma section_block_range_first conf section start end_ :
  section_block_range conf section = Some (start, end_) →
  ∃ p, first_section_header section conf p
       ∧ search (section_re section) conf = Some (p, start)
       ∧ end_ = block_end conf start.
Proof.
  unfold section_block_range.
  destruct (search (section_re section) conf) as [[p st]|] eqn:Hsearch; [|done].
  intros [= <- <-]. exists p. split; [|done]. split.
  - apply section_re_matches_at. by eapply search_Some_matches.
  - intros p' Hp' Hhdr%section_re_matches_at.
    apply search_Some in Hsearch as (_ & _ & Hleft). by apply (Hleft p').
Qed.

(** Where the block stops: at the end of the text or at a header line, and at
    no header line before that. *)
Lemma block_end_spec conf start :
  (start ≤ length conf)%nat → at_eol (drop start conf) →
  (block_end conf start = length conf ∨ header_at conf (block_end conf start))
  ∧ ∀ q, (start ≤ q < block_end conf start)%nat → ¬ header_at conf q.
Proof.
  intros Hstart Heol. unfold block_end.
  destruct (search next_section_re (drop start conf)) as [[i j]|] eqn:Hsearch.
  - pose proof (search_Some_matches _ _ _ _ Hsearch) as Hm.
    pose proof (search_Some _ _ _ _ Hsearch) as (_ & _ & Hleft).
    assert (0 < i)%nat as Hi.
    { destruct i as [|i]; [|lia]. exfalso.
      apply next_section_re_matches_at in Hm as (_ & name & ws & rest & Hs & _).
      rewrite drop_0 in Hs.
      by apply (at_eol_not_bracket _ (name ++ RBRACKET :: ws ++ rest)) in Heol. }
    split.
    + right. apply next_section_re_matches_at. by apply matches_at_undrop.
    + intros q Hq Hhdr.
      assert (start ≠ q) as Hne.
      { intros ->. destruct Hhdr as (_ & name & ws & rest & Hs & _).
        by apply (at_eol_not_bracket _ (name ++ RBRACKET :: ws ++ rest)) in Heol. }
      apply next_section_re_matches_at, (matches_at_drop _ _ start) in Hhdr; [|lia].
      apply (Hleft (q - start)%nat); [lia|done].
  - split; [left; rewrite length_drop; lia|].
    intros q Hq Hhdr.
    assert (start ≠ q) as Hne.
    { intros ->. destruct Hhdr as (_ & name & ws & rest & Hs & _).
      by apply (at_eol_not_bracket _ (name ++ RBRACKET :: ws ++ rest)) in Heol. }
    apply next_section_re_matches_at, (matches_at_drop _ _ start) in Hhdr; [|lia].
    by apply (proj1 (search_None _ _) Hsearch (q - start)%nat).
Qed.

(** X1. The block that the patcher works on: it starts after the first header
    line of the section and the white space that the header match takes, in
    front of a line break or of the end of the text, and it runs to the first
    header line that begins in it or after it, or to the end of the text. *)
Theorem block_runs_to_next_header conf section start end_ :
  section_block_range conf section = Some (start, end_) →
  ∃ p ws,
    first_section_header section conf p
    ∧ start = (header_end section p + length ws)%nat
    ∧ Forall (λ c, isspace c = true) ws
    ∧ drop (header_end section p) conf = ws ++ drop start conf
    ∧ at_eol (drop start conf)
    ∧ (start ≤ end_ ≤ length conf)%nat
    ∧ (end_ = length conf ∨ header_at conf end_)
    ∧ ∀ q, (start ≤ q < end_)%nat → ¬ header_at conf q.
Proof.
  intros (p & Hfirst & Hsearch & ->)%section_block_range_first.
  destruct (search_first_section_header _ _ _ Hfirst)
    as (start' & ws & Hsearch' & Hstart & Hlen & Hws & Hdrop & Heol).
  rewrite Hsearch in Hsearch'. injection Hsearch' as <-.
  destruct (block_end_spec conf start Hlen Heol) as [Hend Hnone].
  exists p, ws. split_and!; [done..|by apply block_end_bounds|by apply block_end_bounds|done|done].
Qed.

(** X2. The patcher raises exactly when a header of the section exists, the
    key pattern matches in its block, and the template compiler of [re.sub]
    rejects [key=value]; the branches that create the section or append the
    key never raise. *)
Theorem raises_exactly_on_rejected_template conf section key value :
  ensure_line_in_section conf section key value = None ↔
  parse_template (key_value key value) = None
  ∧ ∃ start end_,
      section_block_range conf section = Some (start, end_)
      ∧ ∃ p, key_match_at key (slice start end_ conf) p.
Proof.
  unfold ensure_line_in_section, section_block_range, upsert, sub1. split.
  - destruct (search (section_re section) conf) as [[hs start]|]; [|done].
    destruct (search (key_re key) _) as [[i j]|] eqn:Hkey; [|done].
    destruct (parse_template (key_value key value)); [done|]. intros _.
    split; [done|]. exists start, (block_end conf start). split; [done|].
    exists i. apply key_re_matches_at. by eapply search_Some_matches.
  - intros (Ht & start & end_ & Hrange & p & Hp).
    destruct (search (section_re section) conf) as [[hs st]|]; [|done].
    injection Hrange as -> <-.
    apply key_re_matches_at, search_leftmost in Hp as (i & j & -> & _).
    by rewrite Ht.
Qed.

(** A slice of a slice, and the splice of a text into a slice. *)
Lemma slice_of_slice {B} (l : list B) s e i j :
  (i ≤ j)%nat → (s + j ≤ e)%nat →
  take (j - i) (drop i (take (e - s) (drop s l)))
  = take (s + j - (s + i)) (drop (s + i) l).
Proof.
  intros Hij Hje. apply list_eq. intros k.
  destruct (decide (k < j - i)%nat) as [Hk|Hk].
  - rewrite !lookup_take_lt, !lookup_drop, lookup_take_lt, lookup_drop by lia.
    f_equal. lia.
  - by rewrite !lookup_take_ge by lia.
Qed.

Lemma splice_in_slice {B} (l x : list B) s e i j :
  (i ≤ j)%nat → (s + j ≤ e)%nat →
  take s l ++ (take i (take (e - s) (drop s l)) ++ x
               ++ drop j (take (e - s) (drop s l))) ++ drop e l
  = take (s + i) l ++ x ++ drop (s + j) l.
Proof.
  intros Hij Hje. rewrite take_take. replace (i `min` (e - s))%nat with i by lia.
  rewrite <- !app_assoc, app_assoc, take_take_drop. do 2 f_equal.
  replace (drop e l) with (drop (e - s) (drop s l))
    by (rewrite drop_drop; f_equal; lia).
  rewrite drop_take_drop by lia. apply drop_drop.
Qed.

(** The replace branch, for a replacement without a backslash. *)
Lemma ensure_replace_eq conf section key value start end_ i j :
  section_block_range conf section = Some (start, end_) →
  search (key_re key) (slice start end_ conf) = Some (i, j) →
  BACKSLASH ∉ key_value key value →
  (i ≤ j)%nat ∧ (start + j ≤ end_)%nat ∧ (end_ ≤ length conf)%nat
  ∧ slice i j (slice start end_ conf) = slice (start + i) (start + j) conf
  ∧ ensure_line_in_section conf section key value
    = Some (take (start + i) conf ++ key_value key value ++ drop (start + j) conf).
Proof.
  intros (p & Hfirst & Hsearch & ->)%section_block_range_first Hkey Hno.
  destruct (search_first_section_header _ _ _ Hfirst)
    as (start' & ws & Hsearch' & _ & Hlen & _).
  rewrite Hsearch in Hsearch'. injection Hsearch' as <-.
  pose proof (block_end_bounds conf start Hlen) as Hb.
  pose proof (search_Some _ _ _ _ Hkey) as (Hij & _ & _).
  unfold slice in Hij. rewrite length_take, length_drop in Hij.
  split_and!; [lia..| |].
  - unfold slice. apply slice_of_slice; lia.
  - rewrite (ensure_found _ _ _ _ _ _ Hsearch). unfold upsert. rewrite Hkey.
    rewrite (sub1_literal _ _ _ _ _ Hno Hkey). simpl. f_equal.
    unfold slice. apply splice_in_slice; lia.
Qed.

(** X3. When the key pattern matches in the block, and [key=value] holds no
    backslash, the patcher replaces exactly the leftmost match by [key=value]
    and keeps every other character of the text.  The replaced text is made
    of white space, the key, white space, [=], white space and the rest of a
    line, where white space may include line breaks. *)
Theorem replace_changes_only_the_match conf section key value start end_ i j :
  section_block_range conf section = Some (start, end_) →
  search (key_re key) (slice start end_ conf) = Some (i, j) →
  BACKSLASH ∉ key_value key value →
  (i ≤ j)%nat ∧ (start + j ≤ end_)%nat
  ∧ ensure_line_in_section conf section key value
    = Some (take (start + i) conf ++ key_value key value ++ drop (start + j) conf)
  ∧ (∃ ws1 ws2 ws3 val,
        slice (start + i) (start + j) conf = ws1 ++ key ++ ws2 ++ EQUALS :: ws3 ++ val
        ∧ Forall (λ c, isspace c = true) ws1 ∧ Forall (λ c, isspace c = true) ws2
        ∧ Forall (λ c, isspace c = true) ws3
        ∧ Forall (λ c, any_but_newline c = true) val)
  ∧ ∀ q, (q < i)%nat → ¬ key_match_at key (slice start end_ conf) q.
Proof.
  intros Hrange Hkey Hno.
  destruct (ensure_replace_eq _ _ _ _ _ _ _ _ Hrange Hkey Hno)
    as (Hij & Hj & _ & Hslice & Heq).
  pose proof (search_Some _ _ _ _ Hkey) as (_ & (m & rest & Hm & Hlen & Hd) & Hleft).
  split_and!; [done..| |].
  - apply denote_key_re in Hd as (_ & ws1 & ws2 & ws3 & val & -> & H1 & H2 & H3 & Hv & _).
    exists ws1, ws2, ws3, val. split; [|done].
    rewrite <- Hslice. unfold slice at 1. by rewrite Hm, <- Hlen, take_app_length.
  - intros q Hq Hmatch%key_re_matches_at. by apply (Hleft q).
Qed.

(** X4. A text in which the leftmost match of the key pattern already reads
    [key=value] is a fixed point of the patcher: the call returns its input. *)
Theorem unchanged_when_match_reads_key_value conf section key value start end_ i j :
  section_block_range conf section = Some (start, end_) →
  search (key_re key) (slice start end_ conf) = Some (i, j) →
  slice i j (slice start end_ conf) = key_value key value →
  BACKSLASH ∉ key_value key value →
  ensure_line_in_section conf section key value = Some conf.
Proof.
  intros Hrange Hkey Hread Hno.
  destruct (ensure_replace_eq _ _ _ _ _ _ _ _ Hrange Hkey Hno)
    as (Hij & Hj & Hend & Hslice & ->).
  f_equal. rewrite <- Hread, Hslice. unfold slice.
  replace (start + j - (start + i))%nat with (j - i)%nat by lia.
  replace (drop (start + j) conf) with (drop (j - i) (drop (start + i) conf))
    by (rewrite drop_drop; f_equal; lia).
  by rewrite take_drop, take_drop.
Qed.

Lemma startswith_app needle post : startswith needle (needle ++ post) = true.
Proof. induction needle as [|c n IH]; simpl; [by destruct post|]. by rewrite N.eqb_refl. Qed.

Lemma contains_infix needle pre post : contains needle (pre ++ needle ++ post) = true.
Proof.
  induction pre as [|c pre IH].
  - simpl. destruct (needle ++ post) eqn:E; simpl; rewrite <- ?E, startswith_app; done.
  - simpl. rewrite IH. apply orb_true_r.
Qed.

(** X5. When [key=value] holds no backslash, the patcher returns, whatever the
    text and the section, and the text it returns contains [key=value]. *)
Theorem key_value_present conf section key value :
  BACKSLASH ∉ key_value key value →
  ∃ out, ensure_line_in_section conf section key value = Some out
         ∧ contains (key_value key value) out = true.
Proof.
  intros (pre & post & ->)%(ensure_holds_key_value conf section).
  eexists. split; [done|]. apply contains_infix.
Qed.

(** ** The patcher, line by line *)

Lemma lines_nonempty s : lines s ≠ [].
Proof.
  destruct s as [|c s]; simpl; [done|].
  destruct (is_linebreak c); [done|]. by destruct (lines s).
Qed.

(** [(a + "\n" + b).split("\n") == a.split("\n") + b.split("\n")] *)
Lemma lines_app_nl a b : lines (a ++ NL :: b) = lines a ++ lines b.
Proof.
  induction a as [|c a IH]; simpl; [done|].
  destruct (is_linebreak c); [by rewrite IH|]. rewrite IH.
  pose proof (lines_nonempty a). by destruct (lines a).
Qed.

Lemma lines_one_line l : NL ∉ l → lines l = [l].
Proof.
  induction l as [|c l IH]; intros Hno; simpl; [done|].
  apply not_elem_of_cons in Hno as [Hc Hl]. unfold is_linebreak.
  assert ((c =? NL) = false) as -> by (apply N.eqb_neq; congruence).
  by rewrite IH.
Qed.

Lemma endswith_nl_true s : endswith_nl s = true → ∃ s0, s = s0 ++ [NL].
Proof.
  unfold endswith_nl. destruct (last s) as [c|] eqn:Hlast; [|done].
  intros ->%N.eqb_eq. by apply last_Some in Hlast.
Qed.

Lemma key_value_one_line key value :
  NL ∉ key → NL ∉ value → NL ∉ key_value key value.
Proof.
  intros Hk Hv. unfold key_value. rewrite elem_of_app, elem_of_cons.
  intros [?|[?|?]]; done.
Qed.

(** X6. The creation of a section, line by line: when no header line of the
    section exists, every line of the input is kept, in order, and the result
    ends with the header line, the key line and the empty line that follows
    the last line break; a text that did not end with a line break gets one,
    which shows as one more empty line in front of the header. *)
Theorem created_section_lines conf section key value :
  (∀ p, ¬ section_header_at section conf p) →
  NL ∉ section → NL ∉ key → NL ∉ value →
  ∃ out,
    ensure_line_in_section conf section key value = Some out
    ∧ lines out
      = lines conf ++ (if endswith_nl conf then [] else [[]])
        ++ [LBRACKET :: section ++ [RBRACKET]; key_value key value; []].
Proof.
  intros Hno%no_section_header Hs Hk Hv. rewrite (ensure_missing _ _ _ _ Hno).
  eexists. split; [done|].
  assert (NL ∉ LBRACKET :: section ++ [RBRACKET]) as Hhdr.
  { rewrite elem_of_cons, elem_of_app, list_elem_of_singleton. intros [?|[?|?]]; done. }
  pose proof (key_value_one_line _ _ Hk Hv) as Hkv.
  assert (lines (LBRACKET :: section ++ RBRACKET :: NL :: key_value key value ++ [NL])
          = [LBRACKET :: section ++ [RBRACKET]; key_value key value; []]) as Htail.
  { replace (LBRACKET :: section ++ RBRACKET :: NL :: key_value key value ++ [NL])
      with ((LBRACKET :: section ++ [RBRACKET]) ++ NL :: key_value key value ++ NL :: [])
      by (by norm_app).
    by rewrite !lines_app_nl, (lines_one_line _ Hhdr), (lines_one_line _ Hkv). }
  destruct (endswith_nl conf).
  - by rewrite lines_app_nl, Htail.
  - rewrite <- app_assoc. cbn [app]. rewrite lines_app_nl.
    change (lines (NL :: ?x)) with ([] :: lines x). by rewrite Htail.
Qed.

Lemma last_slice conf start end_ :
  (start < end_ ≤ length conf)%nat →
  last (slice start end_ conf) = conf !! (end_ - 1)%nat.
Proof.
  intros H. unfold slice.
  rewrite last_lookup, length_take, length_drop, lookup_take_lt, lookup_drop by lia.
  f_equal. lia.
Qed.

(** A block that stops at a header line ends with a line break. *)
Lemma block_before_header_ends_line conf start end_ :
  (start < end_)%nat → header_at conf end_ →
  endswith_nl (slice start end_ conf) = true.
Proof.
  intros Hlt [Hline _]. pose proof Hline as [Hle _]. unfold endswith_nl.
  rewrite last_slice by lia. by rewrite (line_start_previous _ _ Hline) by lia.
Qed.

(** X7. The append step, line by line: when the section exists and the key
    pattern matches nowhere in its block, the key line is inserted as one new
    line at the end of the block.  If the block ends with a line break, the
    lines of the result are the lines of the input up to the end of the
    block, then the key line, then the lines of the input from the end of the
    block on (the next header line first), and these two runs of lines are
    the lines of the input.  If the block does not end with a line break, it
    runs to the end of the text, and the result has the lines of the input,
    then the key line, then the empty line that its own line break opens. *)
Theorem appended_key_lines conf section key value start end_ :
  section_block_range conf section = Some (start, end_) →
  (∀ p, ¬ key_match_at key (slice start end_ conf) p) →
  NL ∉ key → NL ∉ value →
  ∃ out,
    ensure_line_in_section conf section key value = Some out
    ∧ if endswith_nl (slice start end_ conf)
      then lines conf = lines (take (end_ - 1) conf) ++ lines (drop end_ conf)
           ∧ lines out = lines (take (end_ - 1) conf)
                         ++ key_value key value :: lines (drop end_ conf)
      else end_ = length conf
           ∧ lines out = lines conf ++ [key_value key value; []].
Proof.
  intros (p & Hfirst & Hsearch & ->)%section_block_range_first Hnokey%no_key_match Hk Hv.
  pose proof (key_value_one_line _ _ Hk Hv) as Hkv.
  destruct (search_first_section_header _ _ _ Hfirst)
    as (start' & ws & Hsearch' & _ & Hlen & _ & _ & Heol).
  rewrite Hsearch in Hsearch'. injection Hsearch' as <-.
  pose proof (block_end_bounds conf start Hlen) as Hb.
  destruct (block_end_spec conf start Hlen Heol) as [Hend _].
  rewrite (ensure_found _ _ _ _ _ _ Hsearch). unfold upsert. rewrite Hnokey. simpl.
  remember (block_end conf start) as end_ eqn:Hdef. clear Hdef.
  assert (take start conf ++ slice start end_ conf = take end_ conf) as Hpre.
  { unfold slice. rewrite take_take_drop. f_equal. lia. }
  eexists. split; [reflexivity|].
  destruct (endswith_nl (slice start end_ conf)) eqn:Hnl.
  - apply endswith_nl_true in Hnl as [b0 Hb0]. rewrite Hb0 in Hpre |- *.
    assert (take (end_ - 1) conf = take start conf ++ b0) as ->.
    { assert (length (take start conf ++ b0) = (end_ - 1)%nat) as Hlen0.
      { apply (f_equal length) in Hpre.
        rewrite !length_app, !length_take in Hpre. simpl in Hpre.
        rewrite length_app, length_take. lia. }
      transitivity (take (end_ - 1) (take end_ conf));
        [by rewrite take_take, Nat.min_l by lia|].
      rewrite <- Hpre, app_assoc, <- Hlen0. apply take_app_length. }
    split.
    + rewrite <- lines_app_nl. f_equal.
      rewrite <- (take_drop end_ conf) at 1. rewrite <- Hpre. by norm_app.
    + transitivity (lines ((take start conf ++ b0)
                           ++ NL :: key_value key value ++ NL :: drop end_ conf));
        [f_equal; by norm_app|].
      by rewrite !lines_app_nl, (lines_one_line _ Hkv).
  - assert (end_ = length conf) as Hfull.
    { destruct Hend as [|Hhdr]; [done|]. exfalso.
      assert (start ≠ end_) as Hne.
      { intros Heq. destruct Hhdr as (_ & name & sp & rest & Hs & _).
        rewrite <- Heq in Hs.
        by apply (at_eol_not_bracket _ (name ++ RBRACKET :: sp ++ rest)) in Heol. }
      rewrite block_before_header_ends_line in Hnl by (done || lia). done. }
    split; [done|]. subst end_.
    rewrite (take_ge conf (length conf)) in Hpre by lia.
    transitivity (lines (conf ++ NL :: key_value key value ++ NL :: [])).
    + f_equal. rewrite drop_ge, app_nil_r by lia. norm_app.
      by rewrite app_assoc, Hpre.
    + by rewrite !lines_app_nl, (lines_one_line _ Hkv).
Qed.

(** ** Duplicate headers *)



(** ** Further properties of the backup and of the patch operations *)

Lemma bak_path_neq_path path ts : bak_path path ts ≠ path.
Proof.
  unfold bak_path. induction path as [|a path IH]; [discriminate|].
  intros [= H]. by apply IH.
Qed.

Lemma bak_path_inj path ts1 ts2 : bak_path path ts1 = bak_path path ts2 → ts1 = ts2.
Proof. unfold bak_path. by intros ?%String.app_inj%String.app_inj. Qed.

(** X8. [backup_file]: on a missing source it raises [FileNotFoundError]
    and changes nothing; otherwise it returns the source path followed by
    [.bak_] and the clock reading, that path holds a copy of the source, and
    every other path keeps its content -- the source itself is never
    overwritten.  A backup already stored under the same name is replaced. *)
Theorem backup_file_copies_aside path w :
  match files w !! path with
  | None => backup_file path w = (Raise (FileNotFoundError path), w)
  | Some content =>
      let backup := bak_path path (clock w) in
      ∃ w',
        backup_file path w = (Return backup, w')
        ∧ files w' !! backup = Some content
        ∧ (∀ other, other ≠ backup → files w' !! other = files w !! other)
        ∧ files w' !! path = Some content
        ∧ clock w' = clock w
        ∧ trace w' = trace w ++ [EvCopy path backup; EvPrint (MSG_BACKED_UP path backup)]
  end.
Proof.
  destruct (files w !! path) as [content|] eqn:H; [|by apply backup_file_missing].
  intros backup. unfold backup_file, mbind, io_bind, path_exists. rewrite H.
  rewrite bool_decide_eq_true_2 by (by eexists). simpl.
  unfold strftime_now, copy2. rewrite H. simpl. eexists. split; [done|]. simpl.
  split_and!; [apply lookup_insert_eq| | |done|by rewrite <- app_assoc].
  - intros other Hne. by apply lookup_insert_ne.
  - rewrite lookup_insert_ne by apply bak_path_neq_path. done.
Qed.

Lemma backed_up_world_other w old path :
  path ≠ bak_path GDM_CUSTOM_CONF (clock w) →
  files (backed_up_world w old) !! path = files w !! path.
Proof. intros Hne. simpl. by apply lookup_insert_ne. Qed.

Lemma patched_world_other w old new updated no_change path :
  path ≠ GDM_CUSTOM_CONF → path ≠ bak_path GDM_CUSTOM_CONF (clock w) →
  files (patched_world w old new updated no_change) !! path = files w !! path.
Proof.
  intros Hconf Hbak. unfold patched_world. case_bool_decide.
  - simpl. by rewrite !lookup_insert_ne.
  - by apply backed_up_world_other.
Qed.

Lemma patched_world_clock w old new updated no_change :
  clock (patched_world w old new updated no_change) = clock w.
Proof. unfold patched_world. by case_bool_decide. Qed.

Lemma patch_operation_frame run w path :
  patch_operation run →
  path ≠ GDM_CUSTOM_CONF → path ≠ bak_path GDM_CUSTOM_CONF (clock w) →
  files (run w).2 !! path = files w !! path ∧ clock (run w).2 = clock w.
Proof.
  intros Hrun Hconf Hbak.
  destruct (files w !! GDM_CUSTOM_CONF) as [old|] eqn:H.
  - destruct Hrun as [->|[user ->]].
    + rewrite (disable_wayland_run _ _ H). destruct (wayland_transform old); simpl.
      * by rewrite patched_world_other, patched_world_clock.
      * by rewrite lookup_insert_ne.
    + rewrite (enable_autologin_run _ _ _ H).
      destruct (autologin_transform user old); simpl.
      * by rewrite patched_world_other, patched_world_clock.
      * by rewrite lookup_insert_ne.
  - destruct Hrun as [->|[user ->]].
    + unfold disable_wayland_in_gdm, mbind, io_bind.
      by rewrite (backup_file_missing _ _ H).
    + unfold enable_gdm_autologin, mbind, io_bind.
      by rewrite (backup_file_missing _ _ H).
Qed.

(** X9. A run of [disable_wayland_in_gdm] or of [enable_gdm_autologin],
    whether it returns or raises, changes no path of the storage other than
    the configuration file and the backup path of that run, and leaves the
    clock alone. *)
Theorem patch_touches_two_paths run w path :
  patch_operation run →
  path ≠ GDM_CUSTOM_CONF → path ≠ bak_path GDM_CUSTOM_CONF (clock w) →
  files (run w).2 !! path = files w !! path ∧ clock (run w).2 = clock w.
Proof. apply patch_operation_frame. Qed.

(** X10. Two patch runs in a row, as the script makes them: Wayland first,
    auto-login next, the clock reading [ts2] at the second run.  The second
    backup holds the text that the first run left in the file.  The backup of
    the first run still holds the original text if the two readings differ;
    with the same reading both runs use one backup path, and what it holds at
    the end is the text after the first run, not the original. *)
Theorem successive_backups user w old ts2 :
  files w !! GDM_CUSTOM_CONF = Some old →
  ∃ mid,
    wayland_transform old = Some mid
    ∧ let w1 := (disable_wayland_in_gdm w).2 in
      let w2 := (enable_gdm_autologin user (set_clock ts2 w1)).2 in
      files w1 !! GDM_CUSTOM_CONF = Some mid
      ∧ files w1 !! bak_path GDM_CUSTOM_CONF (clock w) = Some old
      ∧ files w2 !! bak_path GDM_CUSTOM_CONF ts2 = Some mid
      ∧ (ts2 ≠ clock w → files w2 !! bak_path GDM_CUSTOM_CONF (clock w) = Some old).
Proof.
  intros H. destruct (wayland_transform_is_Some old) as [mid Hmid].
  exists mid. split; [done|]. rewrite (disable_wayland_run _ _ H), Hmid. simpl.
  set (w1 := patched_world w old mid MSG_WAYLAND_UPDATED MSG_WAYLAND_NO_CHANGE).
  assert (files w1 !! GDM_CUSTOM_CONF = Some mid) as Hw1.
  { by destruct (patched_world_spec w old mid MSG_WAYLAND_UPDATED MSG_WAYLAND_NO_CHANGE H)
      as (evs & _ & ? & _). }
  assert (files w1 !! bak_path GDM_CUSTOM_CONF (clock w) = Some old) as Hb1.
  { by destruct (patched_world_backup w old mid MSG_WAYLAND_UPDATED MSG_WAYLAND_NO_CHANGE)
      as (evs & _ & _ & ?). }
  assert (files (enable_gdm_autologin user (set_clock ts2 w1)).2
            !! bak_path GDM_CUSTOM_CONF ts2 = Some mid) as Hb2.
  { rewrite (enable_autologin_run user (set_clock ts2 w1) mid) by done.
    destruct (autologin_transform user mid) as [new|]; simpl.
    - by destruct (patched_world_backup (set_clock ts2 w1) mid new
                     (MSG_AUTOLOGIN_UPDATED user) MSG_AUTOLOGIN_NO_CHANGE)
        as (evs & _ & _ & ?).
    - apply lookup_insert_eq. }
  split_and!; [done..|].
  intros Hne.
  destruct (patch_operation_frame (enable_gdm_autologin user) (set_clock ts2 w1)
              (bak_path GDM_CUSTOM_CONF (clock w))) as [-> _]; [right; by eexists| | |done].
  - apply bak_path_neq.
  - simpl. intros Heq%bak_path_inj. done.
Qed.

(** ** Properties of [main] and of the process helpers *)

Lemma sh_bind_eq {E A B} (c : sh E A) (f : A → sh E B) h :
  (c ≫= f) h = match c h with
               | (Done a, h') => f a h'
               | (Raised e, h') => (Raised e, h')
               end.
Proof. reflexivity. Qed.

Lemma sh_bind_raised {E A B} (c : sh E A) (f : A → sh E B) h e h' :
  (c ≫= f) h = (Raised e, h') →
  c h = (Raised e, h') ∨ ∃ a h1, c h = (Done a, h1) ∧ f a h1 = (Raised e, h').
Proof.
  rewrite sh_bind_eq. destruct (c h) as [[a|e1] h1]; [|intros [= -> ->]; by left].
  intros H. right. by exists a, h1.
Qed.

Lemma say_eq {E} msg (h : host E) :
  say msg h
  = (Done (), Host (World (files (hworld h)) (wall_clock E (hmachine h))
                          (trace (hworld h) ++ [EvPrint msg]))
                   (elapse E (hmachine h))).
Proof. reflexivity. Qed.

Lemma run_eq {E} cmd check (h : host E) :
  run cmd check h
  = match started cmd h with
    | (Some returncode, h') =>
        if check && negb (returncode =? 0)%Z
        then (Raised (CalledProcessError returncode cmd), h')
        else (Done returncode, h')
    | (None, h') => (Raised (SpawnError cmd), h')
    end.
Proof.
  unfold run, started. rewrite sh_bind_eq. unfold lift_io, print. simpl.
  rewrite sh_bind_eq. unfold subprocess_run, announced. simpl.
  destruct (spawn E cmd _ _) as [[[code|] fs] m]; simpl; [|done].
  by destruct (check && negb (code =? 0)%Z).
Qed.

(** X11. Without root rights [main] raises [SystemExit] at once: nothing is
    printed, no file is read or written, no program is started. *)
Theorem main_needs_root E args (h : host E) :
  geteuid E (hmachine h) ≠ 0%Z →
  main args h = (Raised (SystemExit MSG_NOT_ROOT), h).
Proof.
  intros Hid%Z.eqb_neq. unfold main. rewrite sh_bind_eq. unfold require_root.
  by rewrite Hid.
Qed.

(** X12. As root, when the GDM configuration file does not exist, [main]
    raises [SystemExit] with the message that names the file; no file is
    changed, nothing is printed, and no program is started: the machine is
    the one after the time that the check of the file takes. *)
Theorem main_needs_gdm_conf E args (h : host E) :
  geteuid E (hmachine h) = 0%Z →
  files (hworld h) !! GDM_CUSTOM_CONF = None →
  ∃ h',
    main args h = (Raised (SystemExit MSG_NO_GDM), h')
    ∧ files (hworld h') = files (hworld h)
    ∧ trace (hworld h') = trace (hworld h)
    ∧ hmachine h' = elapse E (hmachine h).
Proof.
  intros Hid%Z.eqb_eq Hfile. unfold main. rewrite sh_bind_eq. unfold require_root.
  rewrite Hid. simpl. rewrite sh_bind_eq. unfold lift_io, path_exists. simpl.
  rewrite Hfile. rewrite bool_decide_eq_false_2 by (by intros [? ?]). simpl.
  by eexists.
Qed.

Lemma only_process_errors_bind {E A B} (c : sh E A) (f : A → sh E B) :
  only_process_errors c → (∀ a, only_process_errors (f a)) →
  only_process_errors (c ≫= f).
Proof.
  intros Hc Hf h e h' [H|(a & h1 & Ha & H)]%sh_bind_raised; [by eapply Hc|by eapply Hf].
Qed.

Lemma only_process_errors_ret {E A} (a : A) : only_process_errors (mret a : sh E A).
Proof. by intros h e h' [=]. Qed.

Lemma only_process_errors_say {E} msg : only_process_errors (say msg : sh E unit).
Proof. intros h e h'. by rewrite say_eq. Qed.

Lemma only_process_errors_run {E} cmd check :
  only_process_errors (run cmd check : sh E Z).
Proof.
  intros h e h'. rewrite run_eq. destruct (started cmd h) as [[code|] h1].
  - destruct (check && negb (code =? 0)%Z); [|done]. by intros [= <- _].
  - by intros [= <- _].
Qed.

Lemma only_process_errors_systemctl {E} service :
  only_process_errors (systemctl_enable_start service : sh E unit).
Proof.
  unfold systemctl_enable_start.
  repeat (apply only_process_errors_bind; [apply only_process_errors_run|intros _]).
  apply only_process_errors_ret.
Qed.

Lemma only_process_errors_apt {E} pkgs :
  only_process_errors (apt_install pkgs : sh E unit).
Proof.
  unfold apt_install.
  repeat (apply only_process_errors_bind; [apply only_process_errors_run|intros _]).
  apply only_process_errors_ret.
Qed.

Create HintDb process_errors.
#[local] Hint Resolve only_process_errors_say only_process_errors_run
  only_process_errors_systemctl only_process_errors_apt only_process_errors_ret
  : process_errors.

Ltac process_errors :=
  repeat first
    [ solve [auto with process_errors]
    | match goal with |- only_process_errors (if ?b then _ else _) => destruct b end
    | apply only_process_errors_bind; [|intros ?] ].

(** The two patch steps of [main] on a host whose configuration file exists. *)
Lemma lift_disable_returns {E} (h : host E) old :
  files (hworld h) !! GDM_CUSTOM_CONF = Some old →
  ∃ h1 mid,
    lift_io disable_wayland_in_gdm h = (Done (), h1)
    ∧ files (hworld h1) !! GDM_CUSTOM_CONF = Some mid.
Proof.
  intros H. unfold lift_io.
  rewrite (disable_wayland_run (set_clock _ (hworld h)) old) by done.
  destruct (wayland_transform_is_Some old) as [mid ->].
  eexists _, mid. split; [done|]. simpl.
  by destruct (patched_world_spec (set_clock (wall_clock E (hmachine h)) (hworld h))
                 old mid MSG_WAYLAND_UPDATED MSG_WAYLAND_NO_CHANGE H) as (evs & _ & ? & _).
Qed.

Lemma autologin_transform_None user conf :
  autologin_transform user conf = None → BACKSLASH ∈ user.
Proof.
  unfold autologin_transform.
  destruct (ensure_line_in_section conf _ _ _) as [conf1|] eqn:H1; simpl.
  - intros H2%ensure_None%parse_template_None. unfold key_value in H2.
    apply elem_of_app in H2 as [H2|H2].
    + exfalso. revert H2. apply (bool_decide_unpack _). vm_compute. exact I.
    + apply elem_of_cons in H2 as [H2|H2]; [discriminate|done].
  - intros _. apply ensure_None, parse_template_None in H1.
    exfalso. revert H1. apply (bool_decide_unpack _). vm_compute. exact I.
Qed.

Lemma lift_enable_outcome {E} user (h : host E) old :
  files (hworld h) !! GDM_CUSTOM_CONF = Some old →
  (∃ h1, lift_io (enable_gdm_autologin user) h = (Done (), h1))
  ∨ (∃ h1, lift_io (enable_gdm_autologin user) h = (Raised (PatchError ReError), h1)
           ∧ BACKSLASH ∈ user).
Proof.
  intros H. unfold lift_io.
  rewrite (enable_autologin_run user (set_clock _ (hworld h)) old) by done.
  destruct (autologin_transform user old) as [new|] eqn:Ht.
  - left. by eexists.
  - right. eexists. split; [done|]. by eapply autologin_transform_None.
Qed.

Lemma say_done {E} msg (h h1 : host E) u :
  say msg h = (Done u, h1) → files (hworld h1) = files (hworld h).
Proof. rewrite say_eq. by intros [= _ <-]. Qed.

Lemma lift_path_exists_done {E} path (h h1 : host E) present :
  lift_io (path_exists path) h = (Done present, h1) →
  present = bool_decide (is_Some (files (hworld h) !! path))
  ∧ files (hworld h1) = files (hworld h).
Proof. unfold lift_io, path_exists. simpl. by intros [= <- <-]. Qed.

(** X13. The exception with which [re.sub] rejects a replacement template
    can leave [main] only from the auto-login patch, and only when auto-login
    was asked for and the user name holds a backslash: the Wayland patch,
    whose key and value are fixed, never raises it, and neither does the
    auto-login patch for a user name without backslash. *)
Theorem main_patch_errors E args (h h' : host E) :
  main args h = (Raised (PatchError ReError), h') →
  enable_autologin args = true ∧ BACKSLASH ∈ user args.
Proof.
  unfold main. intros [H|(u0 & h0 & Hroot & H)]%sh_bind_raised.
  { unfold require_root in H. by destruct (negb _). }
  unfold require_root in Hroot. destruct (negb _); [done|].
  injection Hroot as _ Hh. subst h0.
  apply sh_bind_raised in H as [H|(present & h1 & Hpresent & H)].
  { unfold lift_io, path_exists in H. simpl in H. done. }
  apply lift_path_exists_done in Hpresent as [-> Hf1].
  destruct (files (hworld h) !! GDM_CUSTOM_CONF) as [old|] eqn:Hfile.
  2:{ rewrite bool_decide_eq_false_2 in H by (by intros [? ?]). done. }
  rewrite bool_decide_eq_true_2 in H by (by eexists).
  cbn [negb] in H. rewrite <- Hf1 in Hfile. clear Hf1.
  apply sh_bind_raised in H as [H|(u2 & h2 & Hsay & H)]; [by rewrite say_eq in H|].
  apply say_done in Hsay. rewrite <- Hsay in Hfile. clear Hsay.
  destruct (lift_disable_returns h2 old Hfile) as (h3' & mid & Hret & Hmid).
  apply sh_bind_raised in H as [H|(u3 & h3 & Hdisable & H)]; [by rewrite Hret in H|].
  rewrite Hret in Hdisable. injection Hdisable as _ Hh. subst h3'.
  apply sh_bind_raised in H as [H|(u4 & h4 & Hmid4 & H)].
  - destruct (enable_autologin args) eqn:Hauto; [|by rewrite say_eq in H].
    apply sh_bind_raised in H as [H|(u5 & h5 & Hsay & H)]; [by rewrite say_eq in H|].
    apply say_done in Hsay. rewrite <- Hsay in Hmid.
    destruct (lift_enable_outcome (user args) h5 mid Hmid)
      as [[h6 Hok]|(h6 & Herr & Hbs)].
    + by rewrite Hok in H.
    + done.
  - exfalso. revert H.
    assert (∀ c : sh E unit, only_process_errors c →
              c h4 = (Raised (PatchError ReError), h') → False) as Hno.
    { intros c Hc Hraise. by apply Hc in Hraise. }
    apply Hno. process_errors.
Qed.

(** X14. [systemctl_enable_start] returns exactly when [systemctl enable] and
    then [systemctl start] were started and exited with status 0, and
    [systemctl status] was started; the exit status of [systemctl status] is
    not looked at.  When [systemctl enable] exits with another status, the
    call raises [CalledProcessError] on the host that this program left:
    [systemctl start] is not started; and likewise for [systemctl start] and
    [systemctl status]. *)
Theorem systemctl_enable_start_returns E service (h : host E) :
  let enable := [str "systemctl"; str "enable"; service] in
  let start := [str "systemctl"; str "start"; service] in
  let status := [str "systemctl"; str "status"; service; str "--no-pager"] in
  (∀ h',
     systemctl_enable_start service h = (Done (), h') ↔
     ∃ h1 h2 rc,
       started enable h = (Some 0%Z, h1)
       ∧ started start h1 = (Some 0%Z, h2)
       ∧ started status h2 = (Some rc, h'))
  ∧ (∀ rc h1,
       started enable h = (Some rc, h1) → rc ≠ 0%Z →
       systemctl_enable_start service h = (Raised (CalledProcessError rc enable), h1))
  ∧ (∀ rc h1 h2,
       started enable h = (Some 0%Z, h1) →
       started start h1 = (Some rc, h2) → rc ≠ 0%Z →
       systemctl_enable_start service h = (Raised (CalledProcessError rc start), h2)).
Proof.
  intros enable start status. unfold systemctl_enable_start.
  fold enable start status. split_and!.
  - intros h'. rewrite sh_bind_eq, run_eq.
    destruct (started enable h) as [[rc1|] h1]; simpl.
    2:{ split; [done|]. by intros (? & ? & ? & [=] & _). }
    destruct (Z.eqb_spec rc1 0) as [->|Hrc1]; simpl.
    2:{ split; [done|]. intros (? & ? & ? & [= ? ?] & _). done. }
    rewrite sh_bind_eq, run_eq.
    destruct (started start h1) as [[rc2|] h2] eqn:Hstart; simpl.
    2:{ split; [done|]. intros (? & ? & ? & [= <-] & H & _).
        rewrite Hstart in H. done. }
    destruct (Z.eqb_spec rc2 0) as [->|Hrc2]; simpl.
    2:{ split; [done|]. intros (? & ? & ? & [= <-] & H & _).
        rewrite Hstart in H. by injection H as ? ?. }
    rewrite sh_bind_eq, run_eq.
    destruct (started status h2) as [[rc3|] h3] eqn:Hstatus; simpl.
    + split.
      * intros [= <-]. by exists h1, h2, rc3.
      * intros (? & ? & ? & [= <-] & H & H3). rewrite Hstart in H.
        injection H as <-. rewrite Hstatus in H3. by injection H3 as _ <-.
    + split; [done|]. intros (? & ? & ? & [= <-] & H & H3). rewrite Hstart in H.
      injection H as <-. rewrite Hstatus in H3. done.
  - intros rc h1 Henable Hrc%Z.eqb_neq.
    by rewrite sh_bind_eq, run_eq, Henable, Hrc.
  - intros rc h1 h2 Henable Hstart Hrc%Z.eqb_neq.
    rewrite sh_bind_eq, run_eq, Henable. simpl.
    by rewrite sh_bind_eq, run_eq, Hstart, Hrc.
Qed.

(** ** Examples for the properties of the whole script *)

Ltac closed_fact := apply (bool_decide_unpack _); vm_compute; exact I.

(** The block of [[daemon]] in a text of two sections runs to [[security]]. *)
Lemma block_runs_to_next_header_witness :
  section_block_range two_sections DAEMON = Some (8, 29)%nat
  ∧ ∃ p ws,
      first_section_header DAEMON two_sections p
      ∧ 8%nat = (header_end DAEMON p + length ws)%nat
      ∧ Forall (λ c, isspace c = true) ws
      ∧ drop (header_end DAEMON p) two_sections = ws ++ drop 8 two_sections
      ∧ at_eol (drop 8 two_sections)
      ∧ (8 ≤ 29 ≤ length two_sections)%nat
      ∧ (29%nat = length two_sections ∨ header_at two_sections 29)
      ∧ ∀ q, (8 ≤ q < 29)%nat → ¬ header_at two_sections q.
Proof.
  assert (section_block_range two_sections DAEMON = Some (8, 29)%nat) as Hr
    by (vm_compute; reflexivity).
  split; [exact Hr|].
  exact (block_runs_to_next_header two_sections DAEMON 8 29 Hr).
Defined.

(** [WaylandEnable=true] is replaced, the rest of the text stays. *)
Lemma replace_changes_only_the_match_witness :
  section_block_range two_sections DAEMON = Some (8, 29)%nat
  ∧ search (key_re WAYLAND_ENABLE) (slice 8 29 two_sections) = Some (0, 19)%nat
  ∧ ensure_line_in_section two_sections DAEMON WAYLAND_ENABLE FALSE
    = Some (take (8 + 0) two_sections ++ key_value WAYLAND_ENABLE FALSE
            ++ drop (8 + 19) two_sections).
Proof.
  assert (section_block_range two_sections DAEMON = Some (8, 29)%nat) as Hr
    by (vm_compute; reflexivity).
  assert (search (key_re WAYLAND_ENABLE) (slice 8 29 two_sections) = Some (0, 19)%nat)
    as Hs by (vm_compute; reflexivity).
  assert (BACKSLASH ∉ key_value WAYLAND_ENABLE FALSE) as Hb by closed_fact.
  split_and!; [exact Hr|exact Hs|].
  exact (proj1 (proj2 (proj2
    (replace_changes_only_the_match two_sections DAEMON WAYLAND_ENABLE FALSE
       8 29 0 19 Hr Hs Hb)))).
Defined.

(** The output of the end-to-end scenario is left as it is. *)
Lemma unchanged_when_match_reads_key_value_witness :
  section_block_range example_output DAEMON = Some (8, 56)%nat
  ∧ search (key_re WAYLAND_ENABLE) (slice 8 56 example_output) = Some (28, 47)%nat
  ∧ ensure_line_in_section example_output DAEMON WAYLAND_ENABLE FALSE
    = Some example_output.
Proof.
  assert (section_block_range example_output DAEMON = Some (8, 56)%nat) as Hr
    by (vm_compute; reflexivity).
  assert (search (key_re WAYLAND_ENABLE) (slice 8 56 example_output) = Some (28, 47)%nat)
    as Hs by (vm_compute; reflexivity).
  split_and!; [exact Hr|exact Hs|].
  apply (unchanged_when_match_reads_key_value example_output DAEMON WAYLAND_ENABLE
           FALSE 8 56 28 47 Hr Hs).
  - vm_compute. reflexivity.
  - closed_fact.
Defined.

(** [WaylandEnable=false] is in the result for a text of two sections. *)
Lemma key_value_present_witness :
  ∃ out, ensure_line_in_section two_sections DAEMON WAYLAND_ENABLE FALSE = Some out
         ∧ contains (key_value WAYLAND_ENABLE FALSE) out = true.
Proof.
  apply (key_value_present two_sections DAEMON WAYLAND_ENABLE FALSE). closed_fact.
Defined.

(** The lines after the creation of [[daemon]] in a text without it. *)
Lemma created_section_lines_witness :
  ∃ out,
    ensure_line_in_section security_only DAEMON WAYLAND_ENABLE FALSE = Some out
    ∧ lines out
      = lines security_only ++ (if endswith_nl security_only then [] else [[]])
        ++ [LBRACKET :: DAEMON ++ [RBRACKET]; key_value WAYLAND_ENABLE FALSE; []].
Proof.
  apply (created_section_lines security_only DAEMON WAYLAND_ENABLE FALSE).
  - apply no_section_header. vm_compute. reflexivity.
  - closed_fact.
  - closed_fact.
  - closed_fact.
Defined.

(** The lines after the append step of the end-to-end scenario. *)
Lemma appended_key_lines_witness :
  ∃ out,
    ensure_line_in_section example_input DAEMON WAYLAND_ENABLE FALSE = Some out
    ∧ if endswith_nl (slice 8 36 example_input)
      then lines example_input
           = lines (take (36 - 1) example_input) ++ lines (drop 36 example_input)
           ∧ lines out = lines (take (36 - 1) example_input)
                         ++ key_value WAYLAND_ENABLE FALSE :: lines (drop 36 example_input)
      else 36%nat = length example_input
           ∧ lines out = lines example_input ++ [key_value WAYLAND_ENABLE FALSE; []].
Proof.
  apply (appended_key_lines example_input DAEMON WAYLAND_ENABLE FALSE 8 36).
  - vm_compute. reflexivity.
  - apply no_key_match. vm_compute. reflexivity.
  - closed_fact.
  - closed_fact.
Defined.

(** A run of the Wayland patch does not touch [/etc/passwd]. *)
Lemma patch_touches_two_paths_witness :
  let w := World {[ GDM_CUSTOM_CONF := example_input; "/etc/passwd" := str "root" ]}
             "20240101_120000" [] in
  files (disable_wayland_in_gdm w).2 !! "/etc/passwd" = files w !! "/etc/passwd"
  ∧ clock (disable_wayland_in_gdm w).2 = clock w.
Proof.
  apply (patch_touches_two_paths disable_wayland_in_gdm
           (World {[ GDM_CUSTOM_CONF := example_input; "/etc/passwd" := str "root" ]}
              "20240101_120000" []) "/etc/passwd").
  - by left.
  - closed_fact.
  - closed_fact.
Defined.

(** The two patch runs of the script, one second apart. *)
Lemma successive_backups_witness :
  ∃ mid,
    wayland_transform example_input = Some mid
    ∧ let w := World {[ GDM_CUSTOM_CONF := example_input ]} "20240101_120000" [] in
      let w1 := (disable_wayland_in_gdm w).2 in
      let w2 := (enable_gdm_autologin (str "gert") (set_clock "20240101_120001" w1)).2 in
      files w1 !! GDM_CUSTOM_CONF = Some mid
      ∧ files w1 !! bak_path GDM_CUSTOM_CONF (clock w) = Some example_input
      ∧ files w2 !! bak_path GDM_CUSTOM_CONF "20240101_120001" = Some mid
      ∧ ("20240101_120001" ≠ clock w →
         files w2 !! bak_path GDM_CUSTOM_CONF (clock w) = Some example_input).
Proof.
  apply (successive_backups (str "gert")
           (World {[ GDM_CUSTOM_CONF := example_input ]} "20240101_120000" [])
           example_input "20240101_120001").
  apply lookup_singleton_eq.
Defined.

(** An ordinary user is turned away. *)
Lemma main_needs_root_witness :
  main ARGS_CORP (@Host user_env (World ∅ "" []) ())
  = (Raised (SystemExit MSG_NOT_ROOT), @Host user_env (World ∅ "" []) ()).
Proof.
  apply (main_needs_root user_env ARGS_CORP (@Host user_env (World ∅ "" []) ())).
  simpl. lia.
Defined.

(** Root on a machine without GDM. *)
Lemma main_needs_gdm_conf_witness :
  ∃ h',
    main ARGS_CORP (@Host root_env (World ∅ "" []) ())
    = (Raised (SystemExit MSG_NO_GDM), h')
    ∧ files (hworld h') = ∅
    ∧ trace (hworld h') = []
    ∧ hmachine h' = ().
Proof.
  apply (main_needs_gdm_conf root_env ARGS_CORP (@Host root_env (World ∅ "" []) ())).
  - reflexivity.
  - apply lookup_empty.
Defined.

(** Auto-login for the user [CORP\user]: the run ends in [re.error]. *)
Lemma main_patch_errors_witness :
  let h := @Host root_env (World {[ GDM_CUSTOM_CONF := autologin_gert ]} "" []) () in
  main ARGS_CORP h = (Raised (PatchError ReError), (main ARGS_CORP h).2)
  ∧ enable_autologin ARGS_CORP = true ∧ BACKSLASH ∈ user ARGS_CORP.
Proof.
  intros h.
  assert (main ARGS_CORP h = (Raised (PatchError ReError), (main ARGS_CORP h).2)) as Hrun
    by (vm_compute; reflexivity).
  split; [exact Hrun|].
  exact (main_patch_errors root_env ARGS_CORP h _ Hrun).
Defined.

(** [systemctl status] exits with 3 (the service is not running), and the
    call returns all the same. *)
Lemma systemctl_enable_start_returns_witness :
  let h := @Host root_env (World ∅ "" []) () in
  ∃ h' h2,
    systemctl_enable_start (str "anydesk.service") h = (Done (), h')
    ∧ started [str "systemctl"; str "status"; str "anydesk.service"; str "--no-pager"] h2
      = (Some 3%Z, h').
Proof.
  intros h.
  destruct (systemctl_enable_start_returns root_env (str "anydesk.service") h)
    as [Hreturns _].
  eexists _, _. split.
  - apply Hreturns. eexists _, _, 3%Z. split_and!; reflexivity.
  - reflexivity.
Defined.
